(** * Secure API access layer of diabetes-m-mcp

    A shallow embedding of the encryption service, the rate-limited retrying
    HTTP client, the encrypted TTL cache, the credentials manager and the
    credential set-up tool, with the properties of each.

    Conventions.  A Node [Buffer] is a list of bytes, each a [Z] in
    [0, 256).  A JavaScript string is the list of its UTF-16 code units,
    each a [Z] in [0, 65536).  Clock readings ([Date.now()]) are [Z]
    milliseconds.  A method that may throw returns a sum or an option. *)

From Stdlib Require Import ZArith List Lia Bool String.
From stdpp Require Import gmap.
From Equations Require Import Equations.
Import ListNotations.

Local Open Scope Z_scope.

Abbreviation bytes := (list Z).
Abbreviation js_string := (list Z).

(** The code units of a string literal of this file (ASCII). *)
Definition js (s : string) : js_string :=
  map (fun a => Z.of_N (Ascii.N_of_ascii a)) (list_ascii_of_string s).

(** ** The 'utf8' codec of Node buffers *)

Module Utf8.

Definition is_high_surrogate (u : Z) : bool := (0xD800 <=? u) && (u <=? 0xDBFF).
Definition is_low_surrogate (u : Z) : bool := (0xDC00 <=? u) && (u <=? 0xDFFF).

Definition replacement : Z := 0xFFFD.

(** The UTF-8 bytes of one code point. *)
Definition encode_code_point (c : Z) : bytes :=
  if c <? 0x80 then [c]
  else if c <? 0x800 then [0xC0 + c / 0x40; 0x80 + c mod 0x40]
  else if c <? 0x10000 then
    [0xE0 + c / 0x1000; 0x80 + (c / 0x40) mod 0x40; 0x80 + c mod 0x40]
  else
    [0xF0 + c / 0x40000; 0x80 + (c / 0x1000) mod 0x40;
     0x80 + (c / 0x40) mod 0x40; 0x80 + c mod 0x40].

(** [Buffer.from(s, 'utf8')], also what [cipher.update(s, 'utf8')] feeds to
    the cipher: a surrogate pair becomes one four-byte sequence, and a
    surrogate code unit that is not part of a pair becomes U+FFFD. *)
Fixpoint encode (s : js_string) : bytes :=
  match s with
  | [] => []
  | u :: rest =>
      if is_high_surrogate u then
        match rest with
        | l :: rest' =>
            if is_low_surrogate l
            then encode_code_point
                   (0x10000 + (u - 0xD800) * 0x400 + (l - 0xDC00)) ++ encode rest'
            else encode_code_point replacement ++ encode rest
        | [] => encode_code_point replacement
        end
      else if is_low_surrogate u then encode_code_point replacement ++ encode rest
      else encode_code_point u ++ encode rest
  end.

(** The code units of one code point. *)
Definition code_units (c : Z) : js_string :=
  if c <? 0x10000 then [c]
  else [0xD800 + (c - 0x10000) / 0x400; 0xDC00 + (c - 0x10000) mod 0x400].

(** The decoder keeps the code point under construction, the number of
    continuation bytes still missing and the range allowed for the next
    one. *)
Inductive decoder_state :=
| Idle
| Pending (cp : Z) (missing : nat) (lo hi : Z).

Definition lead (b : Z) : decoder_state * js_string :=
  if b <=? 0x7F then (Idle, [b])
  else if (0xC2 <=? b) && (b <=? 0xDF) then (Pending (b - 0xC0) 0 0x80 0xBF, [])
  else if (0xE0 <=? b) && (b <=? 0xEF) then
    (Pending (b - 0xE0) 1
       (if b =? 0xE0 then 0xA0 else 0x80) (if b =? 0xED then 0x9F else 0xBF), [])
  else if (0xF0 <=? b) && (b <=? 0xF4) then
    (Pending (b - 0xF0) 2
       (if b =? 0xF0 then 0x90 else 0x80) (if b =? 0xF4 then 0x8F else 0xBF), [])
  else (Idle, [replacement]).

Definition step (st : decoder_state) (b : Z) : decoder_state * js_string :=
  match st with
  | Idle => lead b
  | Pending cp missing lo hi =>
      if (lo <=? b) && (b <=? hi) then
        let cp' := cp * 0x40 + (b - 0x80) in
        match missing with
        | O => (Idle, code_units cp')
        | S m => (Pending cp' m 0x80 0xBF, [])
        end
      else
        let '(st', out) := lead b in (st', replacement :: out)
  end.

Fixpoint decode_from (st : decoder_state) (bs : bytes) : js_string :=
  match bs with
  | [] => match st with Idle => [] | Pending _ _ _ _ => [replacement] end
  | b :: bs' => let '(st', out) := step st b in out ++ decode_from st' bs'
  end.

(** [buf.toString('utf8')]: ill-formed input is replaced by U+FFFD, one per
    maximal ill-formed prefix; a byte order mark is kept. *)
Definition decode (bs : bytes) : js_string := decode_from Idle bs.

(** [String.prototype.isWellFormed]: every surrogate code unit is part of a
    pair. *)
Fixpoint well_formed (s : js_string) : bool :=
  match s with
  | [] => true
  | u :: rest =>
      if is_high_surrogate u then
        match rest with
        | l :: rest' => is_low_surrogate l && well_formed rest'
        | [] => false
        end
      else negb (is_low_surrogate u) && (0 <=? u) && (u <? 0x10000)
           && well_formed rest
  end.

(** Unicode scalar values: the code points that are not surrogates. *)
Definition scalar_value (c : Z) : Prop :=
  (0 <= c < 0xD800) \/ (0xE000 <= c < 0x110000).

End Utf8.

(** ** Results of methods that may throw *)

Inductive result (E A : Type) : Type :=
| Ok (a : A)
| Err (e : E).
Arguments Ok {E A} a.
Arguments Err {E A} e.

Definition is_err {E A} (r : result E A) : bool :=
  match r with Ok _ => false | Err _ => true end.

(** ** node:crypto, the base64 codec and dates, as the services use them *)

Definition is_byte (b : Z) : Prop := 0 <= b < 256.

(** [buf.subarray(start, end)]: indices are clamped to the buffer. *)
Definition subarray (buf : bytes) (start stop : Z) : bytes :=
  firstn (Z.to_nat (stop - start)) (skipn (Z.to_nat start) buf).

(** [buf.subarray(start)] *)
Definition subarray_from (buf : bytes) (start : Z) : bytes :=
  skipn (Z.to_nat start) buf.

Record NodeCrypto : Type := {
  RandomSource : Type;
  (** [randomBytes(n)] *)
  randomBytes : RandomSource -> Z -> bytes * RandomSource;
  (** [pbkdf2Sync(password, salt, iterations, keylen, 'sha512')] *)
  pbkdf2Sync : bytes -> bytes -> Z -> Z -> bytes;
  (** whether [createCipheriv('aes-256-gcm', key, iv)] and
      [createDecipheriv('aes-256-gcm', key, iv)] accept the key and the IV *)
  cipheriv_accepts : bytes -> bytes -> bool;
  (** [update(plaintext)], [final()] and [getAuthTag()] of a cipher:
      ciphertext and tag *)
  gcm_seal : bytes -> bytes -> bytes -> bytes * bytes;
  (** whether [decipher.setAuthTag(tag)] accepts the tag *)
  setAuthTag_accepts : bytes -> bool;
  (** [update(ciphertext)] and [final()] of a decipher with the tag set:
      [None] when [final()] throws because the tag does not verify *)
  gcm_open : bytes -> bytes -> bytes -> bytes -> option bytes;
  (** [buf.toString('base64')] and [Buffer.from(s, 'base64')] *)
  base64_encode : bytes -> js_string;
  base64_decode : js_string -> bytes;
  (** [createHash('sha256').update(s).digest('hex')] *)
  sha256_hex : js_string -> js_string;
  (** [new Date(ms).toISOString()] *)
  toISOString : Z -> js_string
}.

(** What the services rely on. *)
Record NodeCryptoLaws (L : NodeCrypto) : Prop := {
  randomBytes_length : forall g n,
    0 <= n -> length (fst (randomBytes L g n)) = Z.to_nat n;
  randomBytes_bytes : forall g n, Forall is_byte (fst (randomBytes L g n));
  pbkdf2Sync_length : forall pw salt iter n,
    0 <= n -> length (pbkdf2Sync L pw salt iter n) = Z.to_nat n;
  cipheriv_accepts_sizes : forall key iv,
    length key = 32%nat -> length iv = 16%nat -> cipheriv_accepts L key iv = true;
  gcm_seal_bytes : forall key iv pt,
    Forall is_byte (fst (gcm_seal L key iv pt))
    /\ Forall is_byte (snd (gcm_seal L key iv pt));
  gcm_seal_tag_length : forall key iv pt,
    length (snd (gcm_seal L key iv pt)) = 16%nat;
  setAuthTag_accepts_16 : forall tag,
    length tag = 16%nat -> setAuthTag_accepts L tag = true;
  gcm_open_seal : forall key iv pt,
    Forall is_byte pt ->
    gcm_open L key iv (snd (gcm_seal L key iv pt)) (fst (gcm_seal L key iv pt))
    = Some pt;
  base64_decode_encode : forall buf,
    Forall is_byte buf -> base64_decode L (base64_encode L buf) = buf
}.

(** The lengths that [decipher.setAuthTag] accepts for the tag of a GCM
    decipher: 4, 8 and 12 to 16 bytes. *)
Definition validGcmTagLength (n : nat) : bool :=
  (n =? 4)%nat || (n =? 8)%nat || ((12 <=? n)%nat && (n <=? 16)%nat).

(** What node:crypto does with the slices of a payload that is too short:
    [createDecipheriv] throws on an empty IV, [setAuthTag] throws on a tag
    whose length is not one of GCM's, and what [update] and [final] give
    is as long as the ciphertext. *)
Record NodeGcmLaws (L : NodeCrypto) : Prop := {
  cipheriv_rejects_empty_iv : forall key, cipheriv_accepts L key [] = false;
  setAuthTag_accepts_valid : forall tag,
    setAuthTag_accepts L tag = validGcmTagLength (length tag);
  gcm_open_length : forall key iv tag ct pt,
    gcm_open L key iv tag ct = Some pt -> length pt = length ct
}.

(** ** types/security.ts *)

Record EncryptedData : Type := {
  data : js_string;
  version : Z;
  timestamp : js_string
}.

(** [encrypted.data], for the modules that have a [data] of their own. *)
Definition base64Of (e : EncryptedData) : js_string := data e.

Record SecurityConfig : Type := {
  keySize : Z;
  ivSize : Z;
  saltSize : Z;
  tagSize : Z;
  pbkdf2Iterations : Z;
  cacheTtlMs : Z;
  rateLimit : Z;
  auditRetentionDays : Z
}.

Definition DEFAULT_SECURITY_CONFIG : SecurityConfig := {|
  keySize := 32;
  ivSize := 16;
  saltSize := 64;
  tagSize := 16;
  pbkdf2Iterations := 100000;
  cacheTtlMs := 5 * 60 * 1000;
  rateLimit := 1;
  auditRetentionDays := 90
|}.

(** The type of the configuration fixes the four sizes. *)
Definition fixed_sizes (config : SecurityConfig) : Prop :=
  keySize config = 32 /\ ivSize config = 16
  /\ saltSize config = 64 /\ tagSize config = 16.

(** ** security/encryption.ts *)

Module EncryptionService.

Definition ENCRYPTION_VERSION : Z := 1.

Inductive DecryptError : Type :=
| UnsupportedVersion (v : Z)   (* 'Unsupported encryption version: v' *)
| InvalidIV                    (* thrown by createDecipheriv *)
| InvalidAuthTag               (* thrown by setAuthTag *)
| DecryptionFailed.            (* 'Decryption failed: data may be corrupted
                                   or key is incorrect' *)

Inductive EncryptError : Type :=
| InvalidCipherArguments.      (* thrown by createCipheriv *)

Section WithCrypto.
Context (L : NodeCrypto) (config : SecurityConfig).

Definition encrypt (plaintext : js_string) (masterKey : bytes)
    (g : RandomSource L) (now : Z)
  : result EncryptError EncryptedData * RandomSource L :=
  let '(salt, g) := randomBytes L g (saltSize config) in
  let '(iv, g) := randomBytes L g (ivSize config) in
  let key := pbkdf2Sync L masterKey salt (pbkdf2Iterations config) (keySize config) in
  if cipheriv_accepts L key iv then
    let '(encrypted, authTag) := gcm_seal L key iv (Utf8.encode plaintext) in
    let combined := salt ++ iv ++ authTag ++ encrypted in
    (Ok {| data := base64_encode L combined;
           version := ENCRYPTION_VERSION;
           timestamp := toISOString L now |}, g)
  else (Err InvalidCipherArguments, g).

Definition decrypt (encryptedData : EncryptedData) (masterKey : bytes)
  : result DecryptError js_string :=
  if negb (version encryptedData =? ENCRYPTION_VERSION) then
    Err (UnsupportedVersion (version encryptedData))
  else
    let combined := base64_decode L (data encryptedData) in
    let salt := subarray combined 0 (saltSize config) in
    let iv := subarray combined (saltSize config) (saltSize config + ivSize config) in
    let authTag :=
      subarray combined (saltSize config + ivSize config)
        (saltSize config + ivSize config + tagSize config) in
    let encrypted :=
      subarray_from combined (saltSize config + ivSize config + tagSize config) in
    let key := pbkdf2Sync L masterKey salt (pbkdf2Iterations config) (keySize config) in
    if negb (cipheriv_accepts L key iv) then Err InvalidIV
    else if negb (setAuthTag_accepts L authTag) then Err InvalidAuthTag
    else
      match gcm_open L key iv authTag encrypted with
      | Some decrypted => Ok (Utf8.decode decrypted)
      | None => Err DecryptionFailed
      end.

(** The buffer and the slices that [decrypt] takes from a blob, and the
    key it derives. *)
Definition payload (e : EncryptedData) : bytes := base64_decode L (data e).

Definition saltOf (e : EncryptedData) : bytes :=
  subarray (payload e) 0 (saltSize config).

Definition ivOf (e : EncryptedData) : bytes :=
  subarray (payload e) (saltSize config) (saltSize config + ivSize config).

Definition authTagOf (e : EncryptedData) : bytes :=
  subarray (payload e) (saltSize config + ivSize config)
    (saltSize config + ivSize config + tagSize config).

Definition encryptedOf (e : EncryptedData) : bytes :=
  subarray_from (payload e) (saltSize config + ivSize config + tagSize config).

Definition keyOf (e : EncryptedData) (masterKey : bytes) : bytes :=
  pbkdf2Sync L masterKey (saltOf e) (pbkdf2Iterations config) (keySize config).

(** What [update] and [final] give for the blob. *)
Definition opened (e : EncryptedData) (masterKey : bytes) : option bytes :=
  gcm_open L (keyOf e masterKey) (ivOf e) (authTagOf e) (encryptedOf e).

End WithCrypto.

(** The blob of a successful [encrypt]. *)
Definition blobOf {E G : Type} (r : result E EncryptedData * G) : EncryptedData :=
  match fst r with
  | Ok blob => blob
  | Err _ => {| data := []; version := 0; timestamp := [] |}
  end.

(** A blob cut short: the same blob with only the first [n] bytes of its
    payload. *)
Definition truncated (L : NodeCrypto) (n : nat) (e : EncryptedData) : EncryptedData :=
  {| data := base64_encode L (firstn n (base64_decode L (data e)));
     version := version e;
     timestamp := timestamp e |}.

End EncryptionService.

(** ** api/endpoints.ts *)

Definition REQUEST_TIMEOUT : Z := 30000.

Module RATE_LIMIT.
Definition INTERVAL_MS : Z := 1000.
Definition MAX_PER_MINUTE : Z := 30.
Definition BURST : Z := 5.
End RATE_LIMIT.

Module RETRY_CONFIG.
Definition MAX_RETRIES : Z := 3.
Definition INITIAL_DELAY : Z := 1000.
Definition BACKOFF_FACTOR : Z := 2.
Definition MAX_DELAY : Z := 10000.
Definition RETRYABLE_STATUS_CODES : list Z := [408; 429; 500; 502; 503; 504].
End RETRY_CONFIG.

Inductive ERROR_CODES : Type :=
| AUTHENTICATION_FAILED
| SESSION_EXPIRED
| RATE_LIMITED
| NETWORK_ERROR
| INVALID_RESPONSE
| API_CHANGED
| NOT_FOUND
| PERMISSION_DENIED
| VALIDATION_ERROR
| UNKNOWN_ERROR.

(** ** api/client.ts *)

(** [parseInt(s, 10)]: white space at the start is skipped, a sign is read,
    then the decimal digits as far as they go; [None] is NaN, the result
    when no digit is found.  (The integer is exact as long as it has fewer
    than 16 digits.) *)
Definition isWhiteSpace (u : Z) : bool :=
  existsb (Z.eqb u)
    [0x09; 0x0A; 0x0B; 0x0C; 0x0D; 0x20; 0xA0; 0x1680;
     0x2000; 0x2001; 0x2002; 0x2003; 0x2004; 0x2005; 0x2006; 0x2007;
     0x2008; 0x2009; 0x200A; 0x2028; 0x2029; 0x202F; 0x205F; 0x3000; 0xFEFF].

Fixpoint trimStart (s : js_string) : js_string :=
  match s with
  | u :: rest => if isWhiteSpace u then trimStart rest else s
  | [] => []
  end.

Definition isDigit (u : Z) : bool := (48 <=? u) && (u <=? 57).

Fixpoint digitsValue (acc : Z) (s : js_string) : Z :=
  match s with
  | u :: rest => if isDigit u then digitsValue (10 * acc + (u - 48)) rest else acc
  | [] => acc
  end.

Definition parseInt (s : js_string) : option Z :=
  let s := trimStart s in
  let '(sign, s) :=
    match s with
    | u :: rest =>
        if u =? 45 then (-1, rest) else if u =? 43 then (1, rest) else (1, s)
    | [] => (1, s)
    end in
  match s with
  | u :: _ => if isDigit u then Some (sign * digitsValue 0 s) else None
  | [] => None
  end.

(** A thrown value: an [Error] with its name and message, or something
    else. *)
Inductive Thrown : Type :=
| ErrorObject (name message : string)
| OtherValue.

Module DiabetesMClient.

Record RateLimiterState : Type := {
  lastRequest : Z;
  tokens : Z;
  lastRefill : Z
}.

(** The field initialiser of the class; [now] is the clock when the client
    is constructed. *)
Definition initialRateLimiter (now : Z) : RateLimiterState :=
  {| lastRequest := 0; tokens := RATE_LIMIT.BURST; lastRefill := now |}.

(** The first half of [waitForRateLimit]: refill tokens based on time
    passed. *)
Definition refill (now : Z) (rl : RateLimiterState) : RateLimiterState :=
  let timePassed := now - lastRefill rl in
  let tokensToAdd := timePassed / RATE_LIMIT.INTERVAL_MS in
  if 0 <? tokensToAdd then
    {| lastRequest := lastRequest rl;
       tokens := Z.min RATE_LIMIT.BURST (tokens rl + tokensToAdd);
       lastRefill := now |}
  else rl.

(** [waitForRateLimit]: [now] is the clock on entry and [now'] the clock
    at the last statement.  The first component is the delay of the timer
    the call suspends on, [None] when it does not suspend. *)
Definition waitForRateLimit (now now' : Z) (rl : RateLimiterState)
  : option Z * RateLimiterState :=
  let rl := refill now rl in
  let '(waited, tokens') :=
    if tokens rl <=? 0 then
      let waitTime := RATE_LIMIT.INTERVAL_MS - (now - lastRequest rl) in
      (if 0 <? waitTime then Some waitTime else None, 1)
    else (None, tokens rl) in
  (waited,
   {| lastRequest := now'; tokens := tokens' - 1; lastRefill := lastRefill rl |}).

(** Successive acquisitions; each takes the clock on entry and at the last
    statement. *)
Fixpoint acquisitions (reads : list (Z * Z)) (rl : RateLimiterState)
  : list (option Z) * RateLimiterState :=
  match reads with
  | [] => ([], rl)
  | (now, now') :: reads' =>
      let '(waited, rl) := waitForRateLimit now now' rl in
      let '(rest, rl) := acquisitions reads' rl in
      (waited :: rest, rl)
  end.

Inductive ErrorMessage : Type :=
| Session_expired                  (* 'Session expired' *)
| Rate_limited                     (* 'Rate limited' *)
| Request_failed (status : Z)      (* `Request failed: ${response.status}` *)
| Request_timed_out                (* 'Request timed out' *)
| Error_message (m : string)       (* error.message *)
| Network_error.                   (* 'Network error' *)

Record ApiError : Type := {
  code : ERROR_CODES;
  message : ErrorMessage;
  details : option js_string
}.

Record ApiResponse (T : Type) : Type := {
  success : bool;
  data : option T;
  error : option ApiError;
  timestamp : Z
}.
Arguments success {T} _.
Arguments data {T} _.
Arguments error {T} _.
Arguments timestamp {T} _.

(** What [fetch] resolves to.  [retryAfter] is
    [response.headers.get('Retry-After')], [None] when the header is
    absent; [text] and [json] are what reading the body gives. *)
Record Response (T : Type) : Type := {
  status : Z;
  retryAfter : option js_string;
  text : result Thrown js_string;
  json : result Thrown T
}.
Arguments status {T} _.
Arguments retryAfter {T} _.
Arguments text {T} _.
Arguments json {T} _.

(** [parseInt(response.headers.get('Retry-After') || '60', 10) * 1000],
    the delay of the timer of the rate-limit branch; [None] is NaN. *)
Definition retryAfterDelay {T} (response : Response T) : option Z :=
  let header :=
    match retryAfter response with
    | Some (u :: rest) => u :: rest
    | _ => js "60"
    end in
  option_map (fun seconds => seconds * 1000) (parseInt header).

(** [response.ok] *)
Definition ok {T} (response : Response T) : bool :=
  (200 <=? status response) && (status response <=? 299).

Inductive LoginOutcome : Type :=
| LoginResolved (authenticated : bool)
| LoginRejected (e : Thrown).

(** The environment of a client: the successive readings of the clock,
    the successive outcomes of [authManager.login()] and of the [fetch] of
    [request].  A [login()] sends HTTP requests of its own, the GET that
    verifies a stored session and the POST of the credentials:
    [loginRequests n] is how many the [n]-th one sends.  It marks the
    manager authenticated before it stores the tokens, and storing may
    throw: [authenticatedAfter n] tells whether the manager is
    authenticated after the [n]-th [login()] when that one is rejected.
    [deleteTokens n] is what [credentialsManager.deleteTokens()] throws
    when [handleAuthError] calls it after [n] calls of [fetch], [None]
    when it returns. *)
Record World (T : Type) : Type := {
  clock : nat -> Z;
  login : nat -> LoginOutcome;
  loginRequests : nat -> nat;
  authenticatedAfter : nat -> bool;
  deleteTokens : nat -> option Thrown;
  fetch : nat -> string -> string -> option js_string -> result Thrown (Response T)
}.
Arguments clock {T} _ _.
Arguments login {T} _ _.
Arguments loginRequests {T} _ _.
Arguments authenticatedAfter {T} _ _.
Arguments deleteTokens {T} _ _.
Arguments fetch {T} _ _ _ _ _.

(** A timer and the delay it is set with; the delay of a retry is a
    number that may be NaN, [None]. *)
Inductive Timer : Type :=
| RateLimitTimer (ms : Z)
| RetryTimer (ms : option Z).

(** The client and what it has consumed of its environment: [fetches]
    counts the calls of [fetch] by [request], [httpCalls] the HTTP requests
    sent, those and the ones of [login()]; [timers] are the delays it
    suspended on, oldest first. *)
Record ClientState : Type := {
  rateLimiter : RateLimiterState;
  isAuthenticated : bool;
  clockReads : nat;
  logins : nat;
  fetches : nat;
  httpCalls : nat;
  timers : list Timer
}.

(** The delays of the retries among the timers. *)
Definition retryDelays (ts : list Timer) : list (option Z) :=
  flat_map (fun t => match t with RetryTimer ms => [ms] | RateLimitTimer _ => [] end) ts.

(** The status is in [RETRY_CONFIG.RETRYABLE_STATUS_CODES]. *)
Definition retryable (status : Z) : bool :=
  existsb (Z.eqb status) RETRY_CONFIG.RETRYABLE_STATUS_CODES.

Section WithWorld.
Context {T : Type} (w : World T).

Definition rateLimitStep (s : ClientState) : ClientState :=
  let now := clock w (clockReads s) in
  let now' := clock w (S (clockReads s)) in
  let '(waited, rl) := waitForRateLimit now now' (rateLimiter s) in
  {| rateLimiter := rl;
     isAuthenticated := isAuthenticated s;
     clockReads := S (S (clockReads s));
     logins := logins s;
     fetches := fetches s;
     httpCalls := httpCalls s;
     timers := timers s ++ match waited with
                           | Some ms => [RateLimitTimer ms]
                           | None => []
                           end |}.

(** The client after a [login()], with the requests that it sent. *)
Definition afterLogin (authenticated : bool) (s : ClientState) : ClientState :=
  {| rateLimiter := rateLimiter s;
     isAuthenticated := authenticated;
     clockReads := clockReads s;
     logins := S (logins s);
     fetches := fetches s;
     httpCalls := httpCalls s + loginRequests w (logins s);
     timers := timers s |}.

(** [authManager.ensureAuthenticated()] *)
Definition ensureAuthenticated (s : ClientState) : result Thrown unit * ClientState :=
  if isAuthenticated s then (Ok tt, s)
  else
    match login w (logins s) with
    | LoginResolved true => (Ok tt, afterLogin true s)
    | LoginResolved false =>
        (Err (ErrorObject "Error"
                "Authentication required. Please configure credentials first."),
         afterLogin false s)
    | LoginRejected e => (Err e, afterLogin (authenticatedAfter w (logins s)) s)
    end.

(** [this.state.isAuthenticated = false] *)
Definition loggedOut (s : ClientState) : ClientState :=
  {| rateLimiter := rateLimiter s;
     isAuthenticated := false;
     clockReads := clockReads s;
     logins := logins s;
     fetches := fetches s;
     httpCalls := httpCalls s;
     timers := timers s |}.

(** [authManager.handleAuthError()]: the session is dropped and the
    tokens file deleted, then [login()] is tried with the stored
    credentials. *)
Definition handleAuthError (s : ClientState) : result Thrown bool * ClientState :=
  let s := loggedOut s in
  match deleteTokens w (fetches s) with
  | Some e => (Err e, s)
  | None =>
      match login w (logins s) with
      | LoginResolved authenticated => (Ok authenticated, afterLogin authenticated s)
      | LoginRejected e => (Err e, afterLogin (authenticatedAfter w (logins s)) s)
      end
  end.

Definition doFetch (method url : string) (body : option js_string) (s : ClientState)
  : result Thrown (Response T) * ClientState :=
  (fetch w (fetches s) method url body,
   {| rateLimiter := rateLimiter s;
      isAuthenticated := isAuthenticated s;
      clockReads := clockReads s;
      logins := logins s;
      fetches := S (fetches s);
      httpCalls := S (httpCalls s);
      timers := timers s |}).

(** [await new Promise(resolve => setTimeout(resolve, delay))] *)
Definition sleep (delay : option Z) (s : ClientState) : ClientState :=
  {| rateLimiter := rateLimiter s;
     isAuthenticated := isAuthenticated s;
     clockReads := clockReads s;
     logins := logins s;
     fetches := fetches s;
     httpCalls := httpCalls s;
     timers := timers s ++ [RetryTimer delay] |}.

(** [new Date().toISOString()] *)
Definition readClock (s : ClientState) : Z * ClientState :=
  (clock w (clockReads s),
   {| rateLimiter := rateLimiter s;
      isAuthenticated := isAuthenticated s;
      clockReads := S (clockReads s);
      logins := logins s;
      fetches := fetches s;
      httpCalls := httpCalls s;
      timers := timers s |}).

Definition failure (c : ERROR_CODES) (m : ErrorMessage) (d : option js_string)
    (s : ClientState) : result Thrown (ApiResponse T) * ClientState :=
  let '(now, s) := readClock s in
  (Ok {| success := false;
         data := None;
         error := Some {| code := c; message := m; details := d |};
         timestamp := now |}, s).

Definition backoffDelay (retryCount : Z) : Z :=
  Z.min (RETRY_CONFIG.INITIAL_DELAY * RETRY_CONFIG.BACKOFF_FACTOR ^ retryCount)
        RETRY_CONFIG.MAX_DELAY.

(** [error instanceof Error ? error.message : 'Network error'] *)
Definition messageOf (e : Thrown) : ErrorMessage :=
  match e with
  | ErrorObject _ m => Error_message m
  | OtherValue => Network_error
  end.

Definition isAbortError (e : Thrown) : bool :=
  match e with
  | ErrorObject name _ => String.eqb name "AbortError"
  | OtherValue => false
  end.

(** [request(method, endpoint, body, retryCount)].  The result is [Err]
    when the promise is rejected. *)
Equations? request (method endpoint : string) (body : option js_string)
    (retryCount : Z) (s : ClientState)
  : result Thrown (ApiResponse T) * ClientState
  by wf (Z.to_nat (RETRY_CONFIG.MAX_RETRIES - retryCount)) lt :=
request method endpoint body retryCount s :=
  let s := rateLimitStep s in
  match ensureAuthenticated s with
  | (Err e, s) => (Err e, s)
  | (Ok _, s) =>
      (* the catch block *)
      let caught (e : Thrown) (s : ClientState) :=
        if isAbortError e then failure NETWORK_ERROR Request_timed_out None s
        else if Z_lt_dec retryCount RETRY_CONFIG.MAX_RETRIES then
          request method endpoint body (retryCount + 1)
            (sleep (Some (backoffDelay retryCount)) s)
        else failure NETWORK_ERROR (messageOf e) None s in
      (* the try block *)
      match doFetch method endpoint body s with
      | (Err e, s) => caught e s
      | (Ok response, s) =>
          if status response =? 401 then
            match handleAuthError s with
            | (Err e, s) => caught e s
            | (Ok reauthed, s) =>
                if reauthed then
                  if Z_lt_dec retryCount 1 then
                    request method endpoint body (retryCount + 1) s
                  else failure SESSION_EXPIRED Session_expired None s
                else failure SESSION_EXPIRED Session_expired None s
            end
          else if status response =? 429 then
            if Z_lt_dec retryCount RETRY_CONFIG.MAX_RETRIES then
              request method endpoint body (retryCount + 1)
                (sleep (retryAfterDelay response) s)
            else failure RATE_LIMITED Rate_limited None s
          else
            let finish (s : ClientState) :=
              if negb (ok response) then
                match text response with
                | Err e => caught e s
                | Ok errorBody =>
                    failure INVALID_RESPONSE (Request_failed (status response))
                      (Some errorBody) s
                end
              else
                match json response with
                | Err e => caught e s
                | Ok d =>
                    let '(now, s) := readClock s in
                    (Ok {| success := true; data := Some d; error := None;
                           timestamp := now |}, s)
                end in
            if retryable (status response) then
              if Z_lt_dec retryCount RETRY_CONFIG.MAX_RETRIES then
                request method endpoint body (retryCount + 1)
                  (sleep (Some (backoffDelay retryCount)) s)
              else finish s
            else finish s
      end
  end.
Proof.
  all: unfold RETRY_CONFIG.MAX_RETRIES in *; lia.
Qed.

(** The delay before the retry that follows an attempt answered with a
    retryable status: that of the rate-limit branch for a 429, the backoff
    for the others. *)
Definition retryDelay (retryCount : Z) (response : Response T) : option Z :=
  if status response =? 429 then retryAfterDelay response
  else Some (backoffDelay retryCount).

(** The state in which a retry starts: after the rate limiter, the call
    and the timer. *)
Definition retriedAfter (delay : option Z) (method endpoint : string)
    (body : option js_string) (s : ClientState) : ClientState :=
  sleep delay (snd (doFetch method endpoint body (rateLimitStep s))).

Definition retried (method endpoint : string) (body : option js_string)
    (retryCount : Z) (s : ClientState) : ClientState :=
  retriedAfter (Some (backoffDelay retryCount)) method endpoint body s.

(** The answer to the [n]-th call of [fetch]. *)
Definition answer (method endpoint : string) (body : option js_string) (n : nat)
    (response : Response T) : Prop :=
  fetch w n method endpoint body = Ok response.

(** The statuses of [RETRYABLE_STATUS_CODES] that reach the backoff
    branch: 429 is taken by the rate-limit branch before it. *)
Definition backoff_statuses : list Z := [408; 500; 502; 503; 504].

(** The result type: either [success] with the data and no error, or a
    failure with one of the error codes of the client and no data. *)
Definition discriminated (r : ApiResponse T) : Prop :=
  (success r = true /\ data r <> None /\ error r = None)
  \/ (success r = false /\ data r = None
      /\ exists e, error r = Some e
                   /\ In (code e) [SESSION_EXPIRED; RATE_LIMITED;
                                    NETWORK_ERROR; INVALID_RESPONSE]).

(** Every call of [fetch] is answered, with one of the given statuses. *)
Definition always_answers (statuses : list Z) : Prop :=
  forall n method url body,
    exists r, fetch w n method url body = Ok r /\ In (status r) statuses.

(** A request that is retried [MAX_RETRIES] times with the exponential
    backoff and then returns a failure whose code is [INVALID_RESPONSE] or
    [NETWORK_ERROR]. *)
Definition gives_up_after_backoff (method endpoint : string)
    (body : option js_string) (s : ClientState) : Prop :=
  exists r s',
    request method endpoint body 0 s = (Ok r, s')
    /\ (httpCalls s' <= httpCalls s + 4)%nat
    /\ retryDelays (timers s')
       = retryDelays (timers s) ++ map (fun attempt => Some (backoffDelay attempt)) [0; 1; 2]
    /\ success r = false
    /\ exists e, error r = Some e
                 /\ (code e = INVALID_RESPONSE \/ code e = NETWORK_ERROR).

End WithWorld.

(** A client that has just been constructed at time [now], before or after
    a session was established. *)
Definition newClient (now : Z) (authenticated : bool) : ClientState :=
  {| rateLimiter := initialRateLimiter now;
     isAuthenticated := authenticated;
     clockReads := 0;
     logins := 0;
     fetches := 0;
     httpCalls := 0;
     timers := [] |}.

(** A server that answers every request with the same status and an empty
    body that is not JSON; the clock advances by one second per reading and
    a login, when tried, gives [loginOutcome] after one request and, when
    it is rejected, leaves the manager without a session; deleting the
    tokens file does not fail. *)
Definition constantServer (st : Z) (loginOutcome : LoginOutcome) : World unit :=
  {| clock := fun n => 1000 * Z.of_nat n;
     login := fun _ => loginOutcome;
     loginRequests := fun _ => 1%nat;
     authenticatedAfter := fun _ => false;
     deleteTokens := fun _ => None;
     fetch := fun _ _ _ _ =>
       Ok {| status := st; retryAfter := None; text := Ok [];
             json := Err (ErrorObject "SyntaxError" "Unexpected end of JSON input") |} |}.

End DiabetesMClient.

(** ** Where the files of the secure layer live *)

(** A path is the list of its segments below the root; [join] appends
    segments. *)
Abbreviation path := (list string).

Definition join (p : path) (segments : list string) : path := p ++ segments.

(** [dirname(p)] *)
Definition dirname (p : path) : path := removelast p.

(** [process.platform] *)
Inductive Platform : Type :=
| win32
| darwin
| linux
| other_platform (name : string).

(** What the module constants are computed from: the platform, the home
    directory and two environment variables; a variable that is unset or
    empty is [None]. *)
Record Os : Type := {
  platform : Platform;
  homedir : path;
  LOCALAPPDATA : option path;
  XDG_CONFIG_HOME : option path
}.

(** The destination of a [mkdirSync], [writeFileSync] or [appendFileSync]
    and the [mode] it is given. *)
Record Creation : Type := {
  target : path;
  mode : Z
}.

(** types/security.ts *)
Definition CREDENTIALS_FILE_NAME : string := "diabetesm-credentials.enc".
Definition TOKENS_FILE_NAME : string := "diabetesm-tokens.enc".
Definition AUDIT_LOG_FILE_NAME : string := "diabetesm-audit.log".
Definition PERSONAL_AUDIT_LOG_FILE_NAME : string := "diabetesm-personal-audit.log".

Definition getConfigDir (os : Os) : path :=
  match platform os with
  | win32 =>
      join (default (join (homedir os) ["AppData"; "Local"]%string) (LOCALAPPDATA os))
        ["diabetes-m-mcp"]%string
  | darwin =>
      join (homedir os) ["Library"; "Application Support"; "diabetes-m-mcp"]%string
  | _ =>
      join (default (join (homedir os) [".config"]%string) (XDG_CONFIG_HOME os))
        ["diabetes-m-mcp"]%string
  end.

(** security/credentials.ts *)
Module CredentialsPaths.
Definition CONFIG_DIR (os : Os) : path := join (homedir os) [".diabetesm"]%string.
Definition CREDENTIALS_PATH (os : Os) : path := join (CONFIG_DIR os) [CREDENTIALS_FILE_NAME].
Definition TOKENS_PATH (os : Os) : path := join (CONFIG_DIR os) [TOKENS_FILE_NAME].
(** [ensureConfigDir], [storeCredentials] and [storeTokens] *)
Definition directory (os : Os) : Creation := {| target := CONFIG_DIR os; mode := 448 (* 0o700 *) |}.
Definition credentialsDocument (os : Os) : Creation :=
  {| target := CREDENTIALS_PATH os; mode := 384 (* 0o600 *) |}.
Definition sessionDocument (os : Os) : Creation :=
  {| target := TOKENS_PATH os; mode := 384 (* 0o600 *) |}.
End CredentialsPaths.

(** security/audit.ts *)
Module AuditPaths.
Definition CONFIG_DIR (os : Os) : path := join (homedir os) [".diabetesm"]%string.
Definition AUDIT_LOG_PATH (os : Os) : path := join (CONFIG_DIR os) [AUDIT_LOG_FILE_NAME].
Definition PERSONAL_AUDIT_LOG_PATH (os : Os) : path :=
  join (CONFIG_DIR os) [PERSONAL_AUDIT_LOG_FILE_NAME].
(** [ensureConfigDir] and [logOperation] *)
Definition directory (os : Os) : Creation := {| target := CONFIG_DIR os; mode := 448 (* 0o700 *) |}.
Definition auditLog (os : Os) : Creation :=
  {| target := AUDIT_LOG_PATH os; mode := 384 (* 0o600 *) |}.
End AuditPaths.

(** security/keyring.ts *)
Module KeyringPaths.
Definition CONFIG_DIR (os : Os) : path := getConfigDir os.
Definition FALLBACK_KEY_FILE (os : Os) : path := join (CONFIG_DIR os) ["master.key.enc"]%string.
(** [ensureConfigDir] and [getMasterKeyFromFile] *)
Definition directory (os : Os) : Creation := {| target := CONFIG_DIR os; mode := 448 (* 0o700 *) |}.
Definition masterKeyFile (os : Os) : Creation :=
  {| target := FALLBACK_KEY_FILE os; mode := 384 (* 0o600 *) |}.
End KeyringPaths.

(** tools/setup-credentials.ts: the [credentialsFile] that the tool reports. *)
Definition reportedCredentialsFile (os : Os) : path :=
  join (getConfigDir os) [CREDENTIALS_FILE_NAME].

(** The files of the secure layer are all created in one directory. *)
Definition one_config_directory (os : Os) : Prop :=
  exists dir,
    dirname (target (CredentialsPaths.credentialsDocument os)) = dir
    /\ dirname (target (CredentialsPaths.sessionDocument os)) = dir
    /\ dirname (target (AuditPaths.auditLog os)) = dir
    /\ dirname (target (KeyringPaths.masterKeyFile os)) = dir.

(** A Linux account without XDG_CONFIG_HOME. *)
Definition linuxHome : Os :=
  {| platform := linux;
     homedir := ["home"; "user"]%string;
     LOCALAPPDATA := None;
     XDG_CONFIG_HOME := None |}.

(** ** JSON, for the values that it carries *)

(** [stringify] is [None] when [JSON.stringify] gives no string, [parse]
    is [None] when [JSON.parse] throws. *)
Record Json (V : Type) : Type := {
  stringify : V -> option js_string;
  parse : js_string -> option V
}.
Arguments stringify {V} _ _.
Arguments parse {V} _ _.

(** The values of [V] are those that survive [JSON.parse(JSON.stringify(v))];
    the text of [JSON.stringify] is well-formed. *)
Record JsonLaws {V : Type} (J : Json V) : Prop := {
  parse_stringify : forall v s, stringify J v = Some s -> parse J s = Some v;
  stringify_well_formed :
    forall v s, stringify J v = Some s -> Utf8.well_formed s = true
}.

(** The booleans, as JSON writes them. *)
Definition booleans : Json bool := {|
  stringify := fun b : bool => Some (if b then js "true" else js "false");
  parse := fun s : js_string =>
    if decide (s = js "true") then Some true
    else if decide (s = js "false") then Some false
    else None
|}.

(** [NaN] and [null]: JSON writes both as the text null, which parses to
    [null]. *)
Inductive Nullish : Type := NaN | Null.

Definition nullish : Json Nullish := {|
  stringify := fun _ : Nullish => Some (js "null");
  parse := fun s : js_string => if decide (s = js "null") then Some Null else None
|}.

(** ** What can be thrown by the secure layer *)

Inductive Exception : Type :=
| MasterKeyUnavailable       (* keyringManager.getMasterKey() rejects *)
| CipherFailed               (* createCipheriv throws *)
| NotSerializable            (* JSON.stringify gives no string for the cipher *)
| NoCredentialsAvailable     (* 'No credentials available. Please provide
                                 email and password.' *)
| InvalidInput               (* the input schema rejects the arguments *)
| FailedToStoreCredentials (cause : Exception).
                             (* `Failed to store credentials: ${message}` *)

(** ** cache/encrypted-cache.ts *)

Module EncryptedCache.

Section WithLibrary.
Context (L : NodeCrypto) (V : Type) (J : Json V).

(** What an entry holds: the value itself, or the base64 text of its
    encryption.  The private map is written by [set] only, which marks an
    entry [encrypted] exactly when it holds such a text. *)
Inductive Payload : Type :=
| Plain (value : V)
| Sealed (text : js_string).

Record CacheEntry : Type := {
  data : Payload;
  expiresAt : Z;
  createdAt : Z
}.

Definition encrypted (entry : CacheEntry) : bool :=
  match data entry with
  | Sealed _ => true
  | Plain _ => false
  end.

(** The cache object, with the random source its encryptions draw from. *)
Record State : Type := {
  cache : gmap js_string CacheEntry;
  masterKey : option bytes;
  random : RandomSource L
}.

Definition hashKey (key : js_string) : js_string := sha256_hex L key.

(** [ensureMasterKey]; [keyring] is what [keyringManager.getMasterKey()]
    resolves to, [None] when it rejects. *)
Definition ensureMasterKey (keyring : option bytes) (st : State)
  : result Exception bytes * State :=
  match masterKey st with
  | Some key => (Ok key, st)
  | None =>
      match keyring with
      | Some key =>
          (Ok key, {| cache := cache st; masterKey := Some key; random := random st |})
      | None => (Err MasterKeyUnavailable, st)
      end
  end.

(** [set(key, data, ttlMs, encrypt)] at time [now] *)
Definition set (key : js_string) (value : V) (ttlMs : Z) (encrypt : bool)
    (now : Z) (keyring : option bytes) (st : State)
  : result Exception unit * State :=
  let hashedKey := hashKey key in
  let store (storedData : Payload) (st : State) :=
    let entry := {| data := storedData; expiresAt := now + ttlMs; createdAt := now |} in
    (Ok tt, {| cache := <[hashedKey := entry]> (cache st);
               masterKey := masterKey st;
               random := random st |}) in
  if encrypt then
    match ensureMasterKey keyring st with
    | (Err e, st) => (Err e, st)
    | (Ok key, st) =>
        match stringify J value with
        | None => (Err NotSerializable, st)
        | Some text =>
            match EncryptionService.encrypt L DEFAULT_SECURITY_CONFIG text key
                    (random st) now with
            | (Err _, g) =>
                (Err CipherFailed,
                 {| cache := cache st; masterKey := masterKey st; random := g |})
            | (Ok blob, g) =>
                store (Sealed (base64Of blob))
                  {| cache := cache st; masterKey := masterKey st; random := g |}
            end
        end
    end
  else store (Plain value) st.

Definition evict (hashedKey : js_string) (st : State) : State :=
  {| cache := delete hashedKey (cache st);
     masterKey := masterKey st;
     random := random st |}.

(** [get(key)] at time [now]; [None] is [null]. *)
Definition get (key : js_string) (now : Z) (keyring : option bytes) (st : State)
  : option V * State :=
  let hashedKey := hashKey key in
  match cache st !! hashedKey with
  | None => (None, st)
  | Some entry =>
      if expiresAt entry <? now then (None, evict hashedKey st)
      else
        match data entry with
        | Sealed text =>
            (* try *)
            match ensureMasterKey keyring st with
            | (Err _, st) => (None, evict hashedKey st)
            | (Ok key, st) =>
                match EncryptionService.decrypt L DEFAULT_SECURITY_CONFIG
                        (Build_EncryptedData text 1 []) key with
                | Err _ => (None, evict hashedKey st)
                | Ok decrypted =>
                    match parse J decrypted with
                    | None => (None, evict hashedKey st)
                    | Some value => (Some value, st)
                    end
                end
            end
        | Plain value => (Some value, st)
        end
  end.

(** [has(key)] at time [now] *)
Definition has (key : js_string) (now : Z) (st : State) : bool * State :=
  let hashedKey := hashKey key in
  match cache st !! hashedKey with
  | None => (false, st)
  | Some entry =>
      if expiresAt entry <? now then (false, evict hashedKey st)
      else (true, st)
  end.

(** An empty cache. *)
Definition empty (g : RandomSource L) : State :=
  {| cache := ∅; masterKey := None; random := g |}.

End WithLibrary.

Arguments Plain {V} value.
Arguments Sealed {V} text.
Arguments data {V} _.
Arguments expiresAt {V} _.
Arguments createdAt {V} _.
Arguments encrypted {V} entry.
Arguments cache {L V} _.
Arguments masterKey {L V} _.
Arguments random {L V} _.
Arguments ensureMasterKey {L V} keyring st.
Arguments set L {V} J key value ttlMs encrypt now keyring st.
Arguments evict {L V} hashedKey st.
Arguments get L {V} J key now keyring st.
Arguments has {L V} key now st.

End EncryptedCache.

(** ** security/credentials.ts, api/auth.ts and tools/setup-credentials.ts *)

(** A string is truthy when it is not empty. *)
Definition truthy (s : js_string) : bool :=
  match s with [] => false | _ :: _ => true end.

Definition truthy_option (s : option js_string) : bool :=
  match s with Some s => truthy s | None => false end.

Module StoredCredentials.
Record t : Type := {
  email : EncryptedData;
  password : EncryptedData;
  createdAt : js_string;
  updatedAt : js_string
}.
End StoredCredentials.

(** [expiresAt] is the time value of [new Date(data.expiresAt)], [None]
    for an invalid date. *)
Module StoredTokens.
Record t : Type := {
  accessToken : EncryptedData;
  sessionId : option EncryptedData;
  expiresAt : option Z;
  createdAt : js_string
}.
End StoredTokens.

(** What [JSON.parse(readFileSync(path, 'utf8'))] gives: the document, or
    nothing that can be used as one. *)
Inductive FileContent (A : Type) : Type :=
| Document (a : A)
| Unreadable.
Arguments Document {A} a.
Arguments Unreadable {A}.

(** The config directory of security/credentials.ts; a file that does not
    exist is [None]. *)
Record Disk : Type := {
  configDirExists : bool;
  credentialsFile : option (FileContent StoredCredentials.t);
  tokensFile : option (FileContent StoredTokens.t)
}.

Module AuthState.
Record t : Type := {
  accessToken : option js_string;
  sessionId : option js_string;
  cookies : list js_string;
  isAuthenticated : bool;
  lastAuth : option Z
}.
Definition initial : t :=
  {| accessToken := None; sessionId := None; cookies := [];
     isAuthenticated := false; lastAuth := None |}.
End AuthState.

Module LoginResponse.
Record t : Type := {
  success : bool;
  token : option js_string;
  sessionId : option js_string;
  error : option string
}.
End LoginResponse.

(** What the process does to the disk and to the server, oldest first. *)
Inductive Event : Type :=
| CredentialsWritten
| CredentialsDeleted
| TokensWritten
| TokensDeleted
| SessionVerified
| LoginRequested
| Audited (operation : string) (success : bool) (errorCode : option string).

(** What the process runs on: the master key that
    [keyringManager.getMasterKey()] resolves to ([None] when it rejects),
    whether keytar is available, the answers of the server to a session
    verification and to a login (with the cookies it sets), and the
    operating system. *)
Record Host : Type := {
  keyring : option bytes;
  keytarAvailable : bool;
  verifySession : js_string -> option js_string -> bool;
  performLogin : js_string -> js_string -> LoginResponse.t * list js_string;
  os : Os
}.

Module SetupCredentialsResult.
Record t : Type := {
  success : bool;
  message : string;
  storageLocation : path;
  encryptionMethod : string;
  keyStorage : string;
  credentialsFile : path
}.
End SetupCredentialsResult.

Module Secure.

Section WithLibrary.
Context (L : NodeCrypto).

(** The singletons [credentialsManager] and [authManager] with the disk
    and the random source. *)
Record Process : Type := {
  masterKey : option bytes;
  disk : Disk;
  random : RandomSource L;
  auth : AuthState.t;
  events : list Event
}.

(** A computation that returns or throws, and changes the process. *)
Definition M (A : Type) : Type := Process -> result Exception A * Process.

Definition ret {A : Type} (a : A) : M A := fun p => (Ok a, p).

Definition throw {A : Type} (e : Exception) : M A := fun p => (Err e, p).

Definition bind {A B : Type} (m : M A) (k : A -> M B) : M B :=
  fun p =>
    match m p with
    | (Ok a, p') => k a p'
    | (Err e, p') => (Err e, p')
    end.

(** [try { m } catch (error) { handler }] *)
Definition try_catch {A : Type} (m : M A) (handler : Exception -> M A) : M A :=
  fun p =>
    match m p with
    | (Ok a, p') => (Ok a, p')
    | (Err e, p') => handler e p'
    end.

Definition read {A : Type} (f : Process -> A) : M A := fun p => (Ok (f p), p).

Definition update (f : Process -> Process) : M unit := fun p => (Ok tt, f p).

End WithLibrary.

Arguments masterKey {L} _.
Arguments disk {L} _.
Arguments random {L} _.
Arguments auth {L} _.
Arguments events {L} _.
Arguments ret {L A} a.
Arguments throw {L A} e.
Arguments bind {L A B} m k.
Arguments try_catch {L A} m handler.
Arguments read {L A} f.
Arguments update {L} f.

Declare Scope process_scope.
Delimit Scope process_scope with process.
Notation "x <- m ;; k" := (bind m (fun x => k))
  (at level 100, m at next level, right associativity) : process_scope.
Notation "m ;; k" := (bind m (fun _ => k))
  (at level 100, right associativity) : process_scope.

Section WithHost.
Context (L : NodeCrypto) (host : Host) (now : Z).
Local Open Scope process_scope.

Definition withMasterKey (k : option bytes) (p : Process L) : Process L :=
  {| masterKey := k; disk := disk p; random := random p;
     auth := auth p; events := events p |}.

Definition withDisk (d : Disk) (p : Process L) : Process L :=
  {| masterKey := masterKey p; disk := d; random := random p;
     auth := auth p; events := events p |}.

Definition withRandom (g : RandomSource L) (p : Process L) : Process L :=
  {| masterKey := masterKey p; disk := disk p; random := g;
     auth := auth p; events := events p |}.

Definition withAuth (a : AuthState.t) (p : Process L) : Process L :=
  {| masterKey := masterKey p; disk := disk p; random := random p;
     auth := a; events := events p |}.

Definition record (e : Event) : M L unit :=
  update (fun p =>
    {| masterKey := masterKey p; disk := disk p; random := random p;
       auth := auth p; events := events p ++ [e] |}).

(** [auditLogger.logOperation] *)
Definition logOperation (operation : string) (success : bool)
    (errorCode : option string) : M L unit :=
  record (Audited operation success errorCode).

(** *** CredentialsManager *)

Definition ensureConfigDir : M L unit :=
  update (fun p =>
    withDisk {| configDirExists := true;
                credentialsFile := credentialsFile (disk p);
                tokensFile := tokensFile (disk p) |} p).

Definition ensureMasterKey : M L bytes :=
  fun p =>
    match masterKey p with
    | Some key => (Ok key, p)
    | None =>
        match keyring host with
        | Some key => (Ok key, withMasterKey (Some key) p)
        | None => (Err MasterKeyUnavailable, p)
        end
    end.

(** [encryptionService.encrypt(plaintext, masterKey)] *)
Definition encrypt (plaintext : js_string) (key : bytes) : M L EncryptedData :=
  fun p =>
    match EncryptionService.encrypt L DEFAULT_SECURITY_CONFIG plaintext key
            (random p) now with
    | (Ok blob, g) => (Ok blob, withRandom g p)
    | (Err _, g) => (Err CipherFailed, withRandom g p)
    end.

(** [encryptionService.decrypt(blob, masterKey)] *)
Definition decrypt (blob : EncryptedData) (key : bytes) : M L js_string :=
  match EncryptionService.decrypt L DEFAULT_SECURITY_CONFIG blob key with
  | Ok plaintext => ret plaintext
  | Err _ => throw CipherFailed
  end.

Definition writeCredentials (document : StoredCredentials.t) : M L unit :=
  update (fun p =>
    withDisk {| configDirExists := configDirExists (disk p);
                credentialsFile := Some (Document document);
                tokensFile := tokensFile (disk p) |} p) ;;
  record CredentialsWritten.

Definition writeTokens (document : StoredTokens.t) : M L unit :=
  update (fun p =>
    withDisk {| configDirExists := configDirExists (disk p);
                credentialsFile := credentialsFile (disk p);
                tokensFile := Some (Document document) |} p) ;;
  record TokensWritten.

Definition storeCredentials (email password : js_string) : M L unit :=
  ensureConfigDir ;;
  key <- ensureMasterKey ;;
  encryptedEmail <- encrypt email key ;;
  encryptedPassword <- encrypt password key ;;
  writeCredentials
    {| StoredCredentials.email := encryptedEmail;
       StoredCredentials.password := encryptedPassword;
       StoredCredentials.createdAt := toISOString L now;
       StoredCredentials.updatedAt := toISOString L now |}.

(** The document of a file, as the code that parses it uses it. *)
Definition parseFile {A : Type} (content : FileContent A) : M L A :=
  match content with
  | Document a => ret a
  | Unreadable => throw NotSerializable
  end.

Definition getCredentials : M L (option (js_string * js_string)) :=
  file <- read (fun p => credentialsFile (disk p)) ;;
  match file with
  | None => ret None
  | Some content =>
      try_catch
        (key <- ensureMasterKey ;;
         document <- parseFile content ;;
         email <- decrypt (StoredCredentials.email document) key ;;
         password <- decrypt (StoredCredentials.password document) key ;;
         ret (Some (email, password)))
        (fun _ => ret None)
  end.

Definition hasCredentials (p : Process L) : bool :=
  match credentialsFile (disk p) with Some _ => true | None => false end.

Definition deleteCredentials : M L unit :=
  file <- read (fun p => credentialsFile (disk p)) ;;
  match file with
  | None => ret tt
  | Some _ =>
      update (fun p =>
        withDisk {| configDirExists := configDirExists (disk p);
                    credentialsFile := None;
                    tokensFile := tokensFile (disk p) |} p) ;;
      record CredentialsDeleted
  end.

(** [storeTokens(accessToken, sessionId, expiresAt)]; the default expiry
    is 24 hours from now. *)
Definition storeTokens (accessToken : js_string) (sessionId : option js_string)
    (expiresAt : option Z) : M L unit :=
  ensureConfigDir ;;
  key <- ensureMasterKey ;;
  let expiry := default (now + 24 * 60 * 60 * 1000) expiresAt in
  encryptedToken <- encrypt accessToken key ;;
  encryptedSession <-
    (if truthy_option sessionId
     then blob <- encrypt (default [] sessionId) key ;; ret (Some blob)
     else ret None) ;;
  writeTokens
    {| StoredTokens.accessToken := encryptedToken;
       StoredTokens.sessionId := encryptedSession;
       StoredTokens.expiresAt := Some expiry;
       StoredTokens.createdAt := toISOString L now |}.

Definition deleteTokens : M L unit :=
  file <- read (fun p => tokensFile (disk p)) ;;
  match file with
  | None => ret tt
  | Some _ =>
      update (fun p =>
        withDisk {| configDirExists := configDirExists (disk p);
                    credentialsFile := credentialsFile (disk p);
                    tokensFile := None |} p) ;;
      record TokensDeleted
  end.

(** [expiresAt <= new Date()]; a comparison with an invalid date is
    false. *)
Definition expired (expiresAt : option Z) : bool :=
  match expiresAt with
  | Some t => t <=? now
  | None => false
  end.

Definition getTokens : M L (option (js_string * option js_string)) :=
  file <- read (fun p => tokensFile (disk p)) ;;
  match file with
  | None => ret None
  | Some content =>
      try_catch
        (key <- ensureMasterKey ;;
         document <- parseFile content ;;
         if expired (StoredTokens.expiresAt document) then
           deleteTokens ;; ret None
         else
           accessToken <- decrypt (StoredTokens.accessToken document) key ;;
           sessionId <-
             match StoredTokens.sessionId document with
             | Some blob => s <- decrypt blob key ;; ret (Some s)
             | None => ret None
             end ;;
           ret (Some (accessToken, sessionId)))
        (fun _ => ret None)
  end.

Definition hasValidTokens : M L bool :=
  tokens <- getTokens ;;
  ret (match tokens with Some _ => true | None => false end).

Definition clearAll : M L unit := deleteCredentials ;; deleteTokens.

(** *** AuthManager *)

Definition verifySessionM (token : js_string) (sessionId : option js_string)
  : M L bool :=
  record SessionVerified ;; ret (verifySession host token sessionId).

Definition performLoginM (email password : js_string) : M L LoginResponse.t :=
  record LoginRequested ;;
  let '(response, setCookies) := performLogin host email password in
  update (fun p =>
    match setCookies with
    | [] => p
    | _ :: _ =>
        withAuth {| AuthState.accessToken := AuthState.accessToken (auth p);
                    AuthState.sessionId := AuthState.sessionId (auth p);
                    AuthState.cookies := setCookies;
                    AuthState.isAuthenticated := AuthState.isAuthenticated (auth p);
                    AuthState.lastAuth := AuthState.lastAuth (auth p) |} p
    end) ;;
  ret response.

Definition authenticated (token : js_string) (sessionId : option js_string)
  : M L unit :=
  update (fun p =>
    withAuth {| AuthState.accessToken := Some token;
                AuthState.sessionId :=
                  if truthy_option sessionId then sessionId else None;
                AuthState.cookies := AuthState.cookies (auth p);
                AuthState.isAuthenticated := true;
                AuthState.lastAuth := Some now |} p).

(** The second half of the [try] block of [login]: restore the stored
    session if the server still accepts it, else log in. *)
Definition establishSession (email password : js_string) : M L bool :=
  storedTokens <- getTokens ;;
  restored <-
    match storedTokens with
    | Some (accessToken, sessionId) =>
        isValid <- verifySessionM accessToken sessionId ;;
        if isValid then
          authenticated accessToken sessionId ;;
          logOperation "login" true None ;;
          ret true
        else ret false
    | None => ret false
    end ;;
  if restored then ret true
  else
    response <- performLoginM email password ;;
    if LoginResponse.success response
       && truthy_option (LoginResponse.token response)
    then
      authenticated (default [] (LoginResponse.token response))
        (LoginResponse.sessionId response) ;;
      storeTokens (default [] (LoginResponse.token response))
        (LoginResponse.sessionId response)
        (Some (now + 24 * 60 * 60 * 1000)) ;;
      logOperation "login" true None ;;
      ret true
    else
      logOperation "login" false (Some "AUTH_FAILED"%string) ;;
      ret false.

(** [login(email, password)]; an argument that is not given is [None]. *)
Definition login (email password : option js_string) : M L bool :=
  try_catch
    (creds <-
       (if truthy_option email && truthy_option password then
          storeCredentials (default [] email) (default [] password) ;;
          ret (Some (default [] email, default [] password))
        else getCredentials) ;;
     match creds with
     | None =>
         logOperation "login" false (Some "AUTH_FAILED"%string) ;;
         throw NoCredentialsAvailable
     | Some (email, password) => establishSession email password
     end)
    (fun error =>
       logOperation "login" false (Some "AUTH_FAILED"%string) ;;
       throw error).

(** *** tools/setup-credentials.ts *)

Definition setupResult (success : bool) (message : string)
  : SetupCredentialsResult.t :=
  {| SetupCredentialsResult.success := success;
     SetupCredentialsResult.message := message;
     SetupCredentialsResult.storageLocation := CredentialsPaths.CONFIG_DIR (os host);
     SetupCredentialsResult.encryptionMethod :=
       "AES-256-GCM with PBKDF2 key derivation";
     SetupCredentialsResult.keyStorage :=
       if keytarAvailable host
       then "OS Keyring (Windows Credential Vault / macOS Keychain / Linux Secret Service)"
       else "Encrypted file";
     SetupCredentialsResult.credentialsFile := reportedCredentialsFile (os host) |}.

Definition authenticationFailedMessage : string :=
  "Credentials saved but authentication failed. Please verify your email and password are correct for analytics.diabetes-m.com".

Definition verifiedMessage : string :=
  "Credentials configured and verified successfully. You can now use all Diabetes:M tools.".

(** [executeSetupCredentials({email, password})] *)
Definition executeSetupCredentials (email password : js_string)
  : M L SetupCredentialsResult.t :=
  if negb (truthy email && truthy password) then throw InvalidInput
  else
    try_catch
      (storeCredentials email password ;;
       (* diabetesMClient.authenticate *)
       authSuccess <- login (Some email) (Some password) ;;
       if negb authSuccess then
         logOperation "setup_credentials" false (Some "AUTH_FAILED"%string) ;;
         ret (setupResult false authenticationFailedMessage)
       else
         logOperation "setup_credentials" true None ;;
         ret (setupResult true verifiedMessage))
      (fun error =>
         logOperation "setup_credentials" false (Some "STORAGE_ERROR"%string) ;;
         throw (FailedToStoreCredentials error)).

End WithHost.

(** *** What a run leaves behind *)

Section Frames.
Context {L : NodeCrypto}.

(** The events of [p'] continue those of [p]. *)
Definition grows (p p' : Process L) : Prop :=
  exists new, events p' = events p ++ new.

(** Moreover the credentials file is the same and a master key that was
    loaded still is. *)
Definition preserved (p p' : Process L) : Prop :=
  credentialsFile (disk p') = credentialsFile (disk p)
  /\ (forall key, masterKey p = Some key -> masterKey p' = Some key)
  /\ grows p p'.

(** Every run of [m] relates the process before and after by [R]. *)
Definition Framed (R : Process L -> Process L -> Prop) {A : Type} (m : M L A) : Prop :=
  forall p r p', m p = (r, p') -> R p p'.



End Frames.

(** A process that has just started, on a disk. *)
Definition start (L : NodeCrypto) (d : Disk) (g : RandomSource L) : Process L :=
  {| masterKey := None; disk := d; random := g;
     auth := AuthState.initial; events := [] |}.

End Secure.

(** ** What [login] finds when it is asked to verify credentials *)

Section Verification.
Import Secure.
Context (L : NodeCrypto) (host : Host) (now : Z).
Local Open Scope process_scope.

(** The master key that [ensureMasterKey] gives in [p]. *)
Definition keyAt (p : Process L) (key : bytes) : Prop :=
  masterKey p = Some key \/ (masterKey p = None /\ keyring host = Some key).






End Verification.

Arguments keyAt {L} host p key.

(** ** A reference implementation of the library interface

    Small stand-ins with the interface of the library: a linear
    congruential generator for the random source, a keyed stream for the
    cipher and an RFC 4648 base64 codec.  They are not the algorithms of
    OpenSSL; they show that the laws above can be met and let the services
    run on concrete inputs. *)

Module Reference.

Definition next (x : Z) : Z := (1103515245 * x + 12345) mod 2147483648.

(** [n] bytes of the generator started at [x], and where it stops. *)
Fixpoint stream (n : nat) (x : Z) : bytes * Z :=
  match n with
  | O => ([], x)
  | S n' =>
      let x' := next x in
      let '(bs, x'') := stream n' x' in
      ((x' / 65536) mod 256 :: bs, x'')
  end.

Definition absorb (bs : bytes) (x : Z) : Z :=
  fold_left (fun a b => next (a + b)) bs x.

Definition take_random (g : Z) (n : Z) : bytes * Z := stream (Z.to_nat n) g.

Definition derive_key (password salt : bytes) (iterations keylen : Z) : bytes :=
  fst (stream (Z.to_nat keylen) (absorb salt (absorb password iterations))).

Fixpoint mask (xs ks : bytes) : bytes :=
  match xs, ks with
  | x :: xs', k :: ks' => (x + k) mod 256 :: mask xs' ks'
  | _, _ => []
  end.

Fixpoint unmask (xs ks : bytes) : bytes :=
  match xs, ks with
  | x :: xs', k :: ks' => (x - k) mod 256 :: unmask xs' ks'
  | _, _ => []
  end.

Definition keystream (key iv : bytes) (n : nat) : bytes :=
  fst (stream n (absorb iv (absorb key 0))).

Definition tag_of (key iv ciphertext : bytes) : bytes :=
  fst (stream 16 (absorb ciphertext (absorb iv (absorb key 1)))).

(** A 32-byte key and an IV that is not empty. *)
Definition accepts_key_iv (key iv : bytes) : bool :=
  (length key =? 32)%nat && negb (length iv =? 0)%nat.

Definition seal (key iv plaintext : bytes) : bytes * bytes :=
  let ciphertext := mask plaintext (keystream key iv (length plaintext)) in
  (ciphertext, tag_of key iv ciphertext).

(** The tag lengths of GCM: 4, 8 and 12 to 16 bytes. *)
Definition accepts_tag (tag : bytes) : bool :=
  let n := length tag in
  (n =? 4)%nat || (n =? 8)%nat || ((12 <=? n)%nat && (n <=? 16)%nat).

(** The tag given is compared with as many bytes of the tag computed. *)
Definition open (key iv tag ciphertext : bytes) : option bytes :=
  if decide (tag = firstn (length tag) (tag_of key iv ciphertext))
  then Some (unmask ciphertext (keystream key iv (length ciphertext)))
  else None.

(** *** base64 *)

Definition base64_char (d : Z) : Z :=
  if d <? 26 then 65 + d
  else if d <? 52 then 71 + d
  else if d <? 62 then d - 4
  else if d =? 62 then 43
  else 47.

Definition pad : Z := 61.

Fixpoint encode64 (buf : bytes) : js_string :=
  match buf with
  | a :: b :: c :: rest =>
      base64_char (a / 4) :: base64_char ((a mod 4) * 16 + b / 16)
      :: base64_char ((b mod 16) * 4 + c / 64) :: base64_char (c mod 64)
      :: encode64 rest
  | [a; b] =>
      [base64_char (a / 4); base64_char ((a mod 4) * 16 + b / 16);
       base64_char ((b mod 16) * 4); pad]
  | [a] => [base64_char (a / 4); base64_char ((a mod 4) * 16); pad; pad]
  | [] => []
  end.

(** The value of a character of the alphabet; the URL-safe characters are
    accepted too. *)
Definition base64_value (c : Z) : option Z :=
  if (65 <=? c) && (c <=? 90) then Some (c - 65)
  else if (97 <=? c) && (c <=? 122) then Some (c - 71)
  else if (48 <=? c) && (c <=? 57) then Some (c + 4)
  else if (c =? 43) || (c =? 45) then Some 62
  else if (c =? 47) || (c =? 95) then Some 63
  else None.

(** The values up to the first padding character; other characters are
    skipped. *)
Fixpoint base64_values (s : js_string) : list Z :=
  match s with
  | [] => []
  | c :: s' =>
      if c =? pad then []
      else match base64_value c with
           | Some v => v :: base64_values s'
           | None => base64_values s'
           end
  end.

Fixpoint base64_bytes (vs : list Z) : bytes :=
  match vs with
  | a :: b :: c :: d :: rest =>
      a * 4 + b / 16 :: (b mod 16) * 16 + c / 4 :: (c mod 4) * 64 + d
      :: base64_bytes rest
  | [a; b; c] => [a * 4 + b / 16; (b mod 16) * 16 + c / 4]
  | [a; b] => [a * 4 + b / 16]
  | _ => []
  end.

Definition decode64 (s : js_string) : bytes := base64_bytes (base64_values s).

(** Eight hexadecimal digits of the state that absorbed the string. *)
Definition hex_digit (d : Z) : Z := if d <? 10 then 48 + d else 87 + d.

Fixpoint hex (digits : nat) (x : Z) : js_string :=
  match digits with
  | O => []
  | S n => hex n (x / 16) ++ [hex_digit (x mod 16)]
  end.

Definition digest_hex (s : js_string) : js_string :=
  hex 8 (absorb (Utf8.encode s) 0).

(** The milliseconds in decimal digits, instead of a calendar date. *)
Definition digit_count : nat := 20.

Fixpoint decimal (digits : nat) (x : Z) : js_string :=
  match digits with
  | O => []
  | S n => (if x / 10 =? 0 then [] else decimal n (x / 10)) ++ [48 + x mod 10]
  end.

Definition timestamp_of (ms : Z) : js_string :=
  if ms <? 0 then 45 :: decimal digit_count (- ms) else decimal digit_count ms.

Definition crypto : NodeCrypto := {|
  RandomSource := Z;
  randomBytes := take_random;
  pbkdf2Sync := derive_key;
  cipheriv_accepts := accepts_key_iv;
  gcm_seal := seal;
  setAuthTag_accepts := accepts_tag;
  gcm_open := open;
  base64_encode := encode64;
  base64_decode := decode64;
  sha256_hex := digest_hex;
  toISOString := timestamp_of
|}.

Definition masterKey : bytes := fst (stream 32 2024).

End Reference.

(** ** Sample blobs, with the reference implementation *)

Module Samples.
Import EncryptionService.

(** 2025-01-01T00:00:00.000Z *)
Definition now : Z := 1735689600000.

(** [encrypt('secret', masterKey)] *)
Definition secretBlob : EncryptedData :=
  blobOf (encrypt Reference.crypto DEFAULT_SECURITY_CONFIG (js "secret")
            Reference.masterKey 7 now).

(** [encrypt('', masterKey)] *)
Definition emptyBlob : EncryptedData :=
  blobOf (encrypt Reference.crypto DEFAULT_SECURITY_CONFIG []
            Reference.masterKey 7 now).

(** A blob with one bit of byte [i] of its payload flipped. *)
Definition flipped (i : nat) (e : EncryptedData) : EncryptedData :=
  {| data := Reference.encode64
               (alter (fun b => Z.lxor b 1) i (Reference.decode64 (data e)));
     version := version e;
     timestamp := timestamp e |}.

(** A blob tagged with another version. *)
Definition withVersion (v : Z) (e : EncryptedData) : EncryptedData :=
  {| data := data e; version := v; timestamp := timestamp e |}.

(** The cache after [set('logbook:today:', true, 300000)] at time 1000. *)
Definition flagKey : js_string := js "logbook:today:".

Definition flagSet : result Exception unit * EncryptedCache.State Reference.crypto bool :=
  EncryptedCache.set Reference.crypto booleans flagKey true 300000 true 1000
    (Some Reference.masterKey) (EncryptedCache.empty Reference.crypto bool 7).

Definition flagCached : EncryptedCache.State Reference.crypto bool := snd flagSet.

(** The cache after [set('stats:7', NaN, 300000)] at time 1000. *)
Definition nanSet : result Exception unit * EncryptedCache.State Reference.crypto Nullish :=
  EncryptedCache.set Reference.crypto nullish (js "stats:7") NaN 300000 true 1000
    (Some Reference.masterKey) (EncryptedCache.empty Reference.crypto Nullish 7).

(** A cache whose only entry holds a text that is not a blob. *)
Definition corruptCache : EncryptedCache.State Reference.crypto bool :=
  EncryptedCache.Build_State Reference.crypto bool
    {[ EncryptedCache.hashKey Reference.crypto flagKey :=
         {| EncryptedCache.data := EncryptedCache.Sealed (js "not a blob");
            EncryptedCache.expiresAt := 301000;
            EncryptedCache.createdAt := 1000 |} ]}
    (Some Reference.masterKey) 7.

(** A server that accepts or rejects every login and every session, for a
    process whose keyring gives [key]. *)
Definition server (accepts : bool) (key : option bytes) : Host :=
  {| keyring := key;
     keytarAvailable := true;
     verifySession := fun _ _ => accepts;
     performLogin := fun _ _ =>
       if accepts then
         ({| LoginResponse.success := true;
             LoginResponse.token := Some (js "jwt-token");
             LoginResponse.sessionId := None;
             LoginResponse.error := None |}, [js "jwt-token=abc"])
       else
         ({| LoginResponse.success := false;
             LoginResponse.token := None;
             LoginResponse.sessionId := None;
             LoginResponse.error := Some "Invalid email or password"%string |}, []);
     os := linuxHome |}.

(** A session document that expired at time 1000. *)
Definition expiredSession : StoredTokens.t :=
  {| StoredTokens.accessToken := secretBlob;
     StoredTokens.sessionId := None;
     StoredTokens.expiresAt := Some 1000;
     StoredTokens.createdAt := [] |}.

(** A disk with that session document and no credentials. *)
Definition staleDisk : Disk :=
  {| configDirExists := true;
     credentialsFile := None;
     tokensFile := Some (Document expiredSession) |}.

(** A disk with the credentials of an earlier set-up. *)
Definition earlierCredentials : StoredCredentials.t :=
  {| StoredCredentials.email := secretBlob;
     StoredCredentials.password := secretBlob;
     StoredCredentials.createdAt := [];
     StoredCredentials.updatedAt := [] |}.

Definition configuredDisk : Disk :=
  {| configDirExists := true;
     credentialsFile := Some (Document earlierCredentials);
     tokensFile := None |}.

(** Setting up with a password that the server rejects, on a disk that
    holds the credentials of an earlier set-up. *)
Definition rejectedSetup
  : result Exception SetupCredentialsResult.t * Secure.Process Reference.crypto :=
  Secure.executeSetupCredentials Reference.crypto
    (server false (Some Reference.masterKey)) now
    (js "user@example.com") (js "wrong-password")
    (Secure.start Reference.crypto configuredDisk 7).






End Samples.

(** * Properties

    ** The 'utf8' codec: decoding what the encoder produced *)

Ltac arith := Z.div_mod_to_equations; lia.

Ltac decide_tests :=
  repeat match goal with
    | |- context [?a <=? ?b] =>
        first [ replace (a <=? b) with true by (symmetry; apply Z.leb_le; arith)
              | replace (a <=? b) with false by (symmetry; apply Z.leb_gt; arith) ]
    | |- context [?a <? ?b] =>
        first [ replace (a <? b) with true by (symmetry; apply Z.ltb_lt; arith)
              | replace (a <? b) with false by (symmetry; apply Z.ltb_ge; arith) ]
    | |- context [?a =? ?b] =>
        first [ replace (a =? b) with true by (symmetry; apply Z.eqb_eq; arith)
              | replace (a =? b) with false by (symmetry; apply Z.eqb_neq; arith) ]
    end; cbn [andb orb negb].

Section Utf8Facts.
Import Utf8.

Ltac run_decoder :=
  cbn [app decode_from]; unfold step, lead; decide_tests.

Lemma utf8_decode_code_point (c : Z) (rest : bytes) :
  scalar_value c ->
  decode_from Idle (encode_code_point c ++ rest)
  = code_units c ++ decode_from Idle rest.
Proof.
  intros Hc. unfold encode_code_point, code_units, scalar_value in *.
  destruct (Z.ltb_spec c 0x80); [|destruct (Z.ltb_spec c 0x800);
    [|destruct (Z.ltb_spec c 0x10000)]].
  - run_decoder. reflexivity.
  - do 2 run_decoder. unfold code_units. decide_tests.
    cbn [app]. f_equal. f_equal. arith.
  - cbn [app decode_from]; unfold step at 1; unfold lead.
    destruct (Z.eqb_spec (0xE0 + c / 0x1000) 0xE0);
      destruct (Z.eqb_spec (0xE0 + c / 0x1000) 0xED); try (exfalso; lia);
      decide_tests; do 2 run_decoder; unfold code_units; decide_tests;
      cbn [app]; f_equal; f_equal; arith.
  - cbn [app decode_from]; unfold step at 1; unfold lead.
    destruct (Z.eqb_spec (0xF0 + c / 0x40000) 0xF0);
      destruct (Z.eqb_spec (0xF0 + c / 0x40000) 0xF4); try (exfalso; lia);
      decide_tests; do 3 run_decoder; unfold code_units; decide_tests;
      cbn [app]; do 2 (apply (f_equal2 (@cons Z)); [arith|]); reflexivity.
Qed.

(** A surrogate code unit outside a pair is encoded as U+FFFD. *)
Lemma utf8_replacement_bytes :
  encode_code_point replacement = [0xEF; 0xBF; 0xBD].
Proof. reflexivity. Qed.

Lemma utf8_decode_encode_bounded (n : nat) :
  forall s : js_string, (length s <= n)%nat -> well_formed s = true ->
  decode (encode s) = s.
Proof.
  unfold decode.
  induction n as [|n IH]; intros s Hlen Hwf.
  - destruct s; [reflexivity | cbn in Hlen; lia].
  - destruct s as [|u rest]; [reflexivity|].
    cbn [encode well_formed] in *.
    destruct (is_high_surrogate u) eqn:Hh.
    + destruct rest as [|l rest']; [discriminate|].
      apply andb_true_iff in Hwf as [Hl Hwf]. rewrite Hl.
      unfold is_high_surrogate, is_low_surrogate in *.
      rewrite utf8_decode_code_point by (unfold scalar_value; lia).
      rewrite IH by (cbn in Hlen |- *; (lia || assumption)).
      unfold code_units. decide_tests. cbn [app].
      do 2 (apply (f_equal2 (@cons Z)); [arith|]). reflexivity.
    + rewrite !andb_true_iff in Hwf. destruct Hwf as [[[Hl H0] H1] Hwf].
      apply negb_true_iff in Hl. rewrite Hl.
      unfold is_high_surrogate, is_low_surrogate in *.
      rewrite utf8_decode_code_point by (unfold scalar_value; lia).
      rewrite IH by (cbn in Hlen |- *; (lia || assumption)).
      unfold code_units. decide_tests. reflexivity.
Qed.

(** Encoding then decoding a well-formed string gives it back. *)
Lemma utf8_decode_encode (s : js_string) :
  well_formed s = true -> decode (encode s) = s.
Proof. apply (utf8_decode_encode_bounded (length s)). lia. Qed.

(** A lone surrogate does not survive: it comes back as U+FFFD. *)
Lemma utf8_lone_surrogate :
  decode (encode [0xD800]) = [0xFFFD].
Proof. reflexivity. Qed.


End Utf8Facts.

Section Utf8Bytes.
Import Utf8.

Lemma utf8_code_point_bytes (c : Z) :
  0 <= c < 0x110000 -> Forall is_byte (encode_code_point c).
Proof.
  intros Hc. unfold encode_code_point.
  destruct (Z.ltb_spec c 0x80); [|destruct (Z.ltb_spec c 0x800);
    [|destruct (Z.ltb_spec c 0x10000)]];
    repeat constructor; unfold is_byte; arith.
Qed.

(** The encoder produces bytes, whatever the code units are. *)
Lemma utf8_encode_bytes_bounded (n : nat) :
  forall s : js_string, (length s <= n)%nat ->
  Forall (fun u => 0 <= u < 0x10000) s -> Forall is_byte (encode s).
Proof.
  induction n as [|n IH]; intros s Hlen Hs.
  - destruct s; [constructor | cbn in Hlen; lia].
  - destruct s as [|u rest]; [constructor|].
    inversion Hs as [|? ? Hu Hrest]; subst. cbn [encode].
    assert (Hrep : Forall is_byte (encode_code_point replacement))
      by (apply utf8_code_point_bytes; unfold replacement; lia).
    assert (IHrest : Forall is_byte (encode rest))
      by (apply IH; [cbn in Hlen; lia | assumption]).
    destruct (is_high_surrogate u) eqn:Hh.
    + destruct rest as [|l rest']; [assumption|].
      inversion Hrest as [|? ? Hl Hrest']; subst.
      destruct (is_low_surrogate l) eqn:Hlow.
      * apply Forall_app. split.
        -- apply utf8_code_point_bytes.
           unfold is_high_surrogate, is_low_surrogate in *. lia.
        -- apply IH; [cbn in Hlen; lia | assumption].
      * apply Forall_app. split; assumption.
    + destruct (is_low_surrogate u); apply Forall_app; split; try assumption.
      apply utf8_code_point_bytes. lia.
Qed.

Lemma utf8_encode_bytes (s : js_string) :
  Forall (fun u => 0 <= u < 0x10000) s -> Forall is_byte (encode s).
Proof. apply (utf8_encode_bytes_bounded (length s)). lia. Qed.

Lemma utf8_well_formed_code_units (s : js_string) :
  well_formed s = true -> Forall (fun u => 0 <= u < 0x10000) s.
Proof.
  remember (length s) as n eqn:En. revert s En.
  induction n as [n IH] using lt_wf_ind. intros s En Hwf.
  destruct s as [|u rest]; [constructor|].
  cbn [well_formed] in Hwf.
  destruct (is_high_surrogate u) eqn:Hh.
  - destruct rest as [|l rest']; [discriminate|].
    apply andb_true_iff in Hwf as [Hl Hwf].
    unfold is_high_surrogate, is_low_surrogate in *.
    repeat constructor; try lia.
    apply (IH (length rest')); [subst n; cbn; lia | reflexivity | assumption].
  - rewrite !andb_true_iff in Hwf. destruct Hwf as [[[_ H0] H1] Hwf].
    constructor; [lia|].
    apply (IH (length rest)); [subst n; cbn; lia | reflexivity | assumption].
Qed.

End Utf8Bytes.

(** ** The reference implementation meets the laws *)

Section ReferenceFacts.
Import Reference.

Lemma stream_length (n : nat) : forall x, length (fst (stream n x)) = n.
Proof.
  induction n as [|n IH]; intros x; [reflexivity|].
  cbn [stream]. specialize (IH (next x)).
  destruct (stream n (next x)). cbn in *. congruence.
Qed.

Lemma stream_bytes (n : nat) : forall x, Forall is_byte (fst (stream n x)).
Proof.
  induction n as [|n IH]; intros x; [constructor|].
  cbn [stream]. specialize (IH (next x)).
  destruct (stream n (next x)). cbn in *.
  constructor; [unfold is_byte; arith | assumption].
Qed.

Lemma mask_bytes (xs : bytes) : forall ks, Forall is_byte (mask xs ks).
Proof.
  induction xs as [|x xs IH]; intros [|k ks]; cbn; try constructor;
    [unfold is_byte; arith | apply IH].
Qed.

Lemma mask_length (xs : bytes) :
  forall ks, (length xs <= length ks)%nat -> length (mask xs ks) = length xs.
Proof.
  induction xs as [|x xs IH]; intros [|k ks] H; cbn in *; try lia.
  rewrite IH by lia. reflexivity.
Qed.

Lemma unmask_mask (xs : bytes) :
  forall ks, Forall is_byte xs -> (length xs <= length ks)%nat ->
  unmask (mask xs ks) ks = xs.
Proof.
  induction xs as [|x xs IH]; intros [|k ks] Hb Hl; cbn in *;
    try lia; try reflexivity.
  inversion Hb as [|? ? Hx Hxs]; subst.
  rewrite IH by (assumption || lia). f_equal. unfold is_byte in Hx. arith.
Qed.

Lemma base64_values_char (d : Z) (s : js_string) :
  0 <= d < 64 -> base64_values (base64_char d :: s) = d :: base64_values s.
Proof.
  intros Hd. cbn [base64_values]. unfold base64_char, base64_value, pad.
  destruct (Z.ltb_spec d 26); [|destruct (Z.ltb_spec d 52);
    [|destruct (Z.ltb_spec d 62); [|destruct (Z.eqb_spec d 62)]]];
    decide_tests; f_equal; lia.
Qed.

Lemma decode64_encode64_bounded (n : nat) :
  forall buf : bytes, (length buf <= n)%nat -> Forall is_byte buf ->
  decode64 (encode64 buf) = buf.
Proof.
  unfold decode64.
  induction n as [|n IH]; intros buf Hlen Hb.
  - destruct buf; [reflexivity | cbn in Hlen; lia].
  - destruct buf as [|a [|b [|c rest]]]; [reflexivity|..].
    + inversion Hb as [|? ? Ha _]; subst. unfold is_byte in Ha.
      cbn [encode64]. rewrite !base64_values_char by arith.
      cbn. f_equal. arith.
    + inversion Hb as [|? ? Ha Hb']; subst. inversion Hb' as [|? ? Hb0 _]; subst.
      unfold is_byte in *.
      cbn [encode64]. rewrite !base64_values_char by arith.
      cbn. f_equal; [arith|]. f_equal. arith.
    + inversion Hb as [|? ? Ha Hb']; subst. inversion Hb' as [|? ? Hb0 Hb'']; subst.
      inversion Hb'' as [|? ? Hc Hrest]; subst. unfold is_byte in *.
      cbn [encode64]. rewrite !base64_values_char by arith.
      cbn [base64_bytes]. rewrite IH by (cbn in Hlen; (lia || assumption)).
      f_equal; [arith|]. f_equal; [arith|]. f_equal. arith.
Qed.

Lemma decode64_encode64 (buf : bytes) :
  Forall is_byte buf -> decode64 (encode64 buf) = buf.
Proof. apply (decode64_encode64_bounded (length buf)). lia. Qed.

Lemma reference_laws : NodeCryptoLaws crypto.
Proof.
  constructor;
    cbn [randomBytes pbkdf2Sync cipheriv_accepts gcm_seal setAuthTag_accepts
         gcm_open base64_encode base64_decode crypto].
  - intros g n _. apply stream_length.
  - intros g n. apply stream_bytes.
  - intros pw salt iter n _. apply stream_length.
  - intros key iv Hk Hi. unfold accepts_key_iv. rewrite Hk, Hi. reflexivity.
  - intros key iv pt. split; [apply mask_bytes | apply stream_bytes].
  - intros key iv pt. apply stream_length.
  - intros tag Ht. unfold accepts_tag. rewrite Ht. reflexivity.
  - intros key iv pt Hb. unfold open, seal. cbn [fst snd].
    assert (Hk : length (keystream key iv (length pt)) = length pt)
      by apply stream_length.
    rewrite mask_length by lia.
    set (ct := mask pt (keystream key iv (length pt))).
    rewrite firstn_all.
    destruct (decide _) as [_|Hne]; [|contradiction].
    subst ct. rewrite unmask_mask by (assumption || lia). reflexivity.
  - apply decode64_encode64.
Qed.

Lemma unmask_length (xs : bytes) :
  forall ks, length ks = length xs -> length (unmask xs ks) = length xs.
Proof.
  induction xs as [|x xs IH]; intros [|k ks] H; cbn in *; try lia.
  rewrite IH by lia. reflexivity.
Qed.

Lemma reference_gcm_laws : NodeGcmLaws crypto.
Proof.
  constructor.
  - intros key. cbn [cipheriv_accepts crypto]. unfold accepts_key_iv.
    apply andb_false_r.
  - intros tag. reflexivity.
  - intros key iv tag ct pt. cbn [gcm_open crypto]. unfold open.
    destruct (decide _); [|discriminate].
    intros H. inversion H. apply unmask_length.
    unfold keystream. apply stream_length.
Qed.

End ReferenceFacts.

(** ** The token bucket *)

Section RateLimiterFacts.
Import DiabetesMClient.

Lemma refill_tokens_ge (now : Z) (rl : RateLimiterState) :
  tokens rl <= RATE_LIMIT.BURST -> tokens rl <= tokens (refill now rl).
Proof.
  unfold refill. destruct (0 <? _) eqn:E; cbn; [|lia].
  apply Z.ltb_lt in E. lia.
Qed.

Lemma refill_tokens_le (now : Z) (rl : RateLimiterState) :
  tokens rl <= RATE_LIMIT.BURST -> tokens (refill now rl) <= RATE_LIMIT.BURST.
Proof.
  unfold refill. destruct (0 <? _); cbn; lia.
Qed.

(** With a token left after the refill there is no timer and one token is
    taken. *)
Lemma waitForRateLimit_token (now now' : Z) (rl : RateLimiterState) :
  0 < tokens (refill now rl) ->
  waitForRateLimit now now' rl
  = (None, {| lastRequest := now';
              tokens := tokens (refill now rl) - 1;
              lastRefill := lastRefill (refill now rl) |}).
Proof.
  intros H. unfold waitForRateLimit.
  destruct (Z.leb_spec (tokens (refill now rl)) 0); [lia | reflexivity].
Qed.

(** With no token left the timer is computed once from the state, and the
    bucket is left empty. *)
Lemma waitForRateLimit_empty (now now' : Z) (rl : RateLimiterState) :
  tokens (refill now rl) <= 0 ->
  waitForRateLimit now now' rl
  = ((let waitTime := RATE_LIMIT.INTERVAL_MS - (now - lastRequest rl) in
      if 0 <? waitTime then Some waitTime else None),
     {| lastRequest := now'; tokens := 0;
        lastRefill := lastRefill (refill now rl) |}).
Proof.
  intros H. unfold waitForRateLimit.
  destruct (Z.leb_spec (tokens (refill now rl)) 0); [|lia].
  replace (lastRequest (refill now rl)) with (lastRequest rl); [reflexivity|].
  unfold refill. destruct (0 <? _); reflexivity.
Qed.

Lemma waitForRateLimit_tokens_le (now now' : Z) (rl : RateLimiterState) :
  tokens rl <= RATE_LIMIT.BURST ->
  tokens (snd (waitForRateLimit now now' rl)) <= RATE_LIMIT.BURST.
Proof.
  intros H. pose proof (refill_tokens_le now rl H).
  destruct (Z.leb_spec (tokens (refill now rl)) 0).
  - rewrite waitForRateLimit_empty by assumption. cbn. unfold RATE_LIMIT.BURST. lia.
  - rewrite waitForRateLimit_token by assumption. cbn. lia.
Qed.

(** As many acquisitions as there are tokens go through without a timer. *)
Lemma acquisitions_within_tokens (reads : list (Z * Z)) :
  forall rl : RateLimiterState,
  Z.of_nat (length reads) <= tokens rl -> tokens rl <= RATE_LIMIT.BURST ->
  fst (acquisitions reads rl) = repeat None (length reads)
  /\ tokens rl - Z.of_nat (length reads) <= tokens (snd (acquisitions reads rl))
  /\ tokens (snd (acquisitions reads rl)) <= RATE_LIMIT.BURST.
Proof.
  induction reads as [|[now now'] reads IH]; intros rl Hn Hb.
  - cbn. repeat split; lia.
  - cbn [acquisitions length repeat] in *.
    pose proof (refill_tokens_ge now rl Hb).
    pose proof (refill_tokens_le now rl Hb).
    rewrite waitForRateLimit_token by lia.
    set (rl' := {| lastRequest := now' |}).
    destruct (IH rl') as (E & Hlo & Hhi); [subst rl'; cbn; lia..|].
    destruct (acquisitions reads rl') as [rest rl'']. cbn in *.
    subst rl'; cbn in *. repeat split; [congruence | lia | lia].
Qed.

Lemma refill_noop (now : Z) (rl : RateLimiterState) :
  (now - lastRefill rl) / RATE_LIMIT.INTERVAL_MS <= 0 -> refill now rl = rl.
Proof.
  intros H. unfold refill.
  destruct (Z.ltb_spec 0 ((now - lastRefill rl) / RATE_LIMIT.INTERVAL_MS));
    [lia | reflexivity].
Qed.

Lemma refill_idempotent (now : Z) (rl : RateLimiterState) :
  refill now (refill now rl) = refill now rl.
Proof.
  destruct (Z.ltb_spec 0 ((now - lastRefill rl) / RATE_LIMIT.INTERVAL_MS)) as [H|H].
  - assert (E : lastRefill (refill now rl) = now).
    { unfold refill. apply Z.ltb_lt in H. rewrite H. reflexivity. }
    apply refill_noop. rewrite E, Z.sub_diag. reflexivity.
  - rewrite (refill_noop now rl) by lia. apply refill_noop. lia.
Qed.

Lemma waitForRateLimit_refill (now now' : Z) (rl : RateLimiterState) :
  waitForRateLimit now now' (refill now rl) = waitForRateLimit now now' rl.
Proof. unfold waitForRateLimit. rewrite refill_idempotent. reflexivity. Qed.

Lemma refill_initialRateLimiter (t t0 : Z) :
  exists t1, refill t (initialRateLimiter t0) = initialRateLimiter t1
             /\ (t - t1) / RATE_LIMIT.INTERVAL_MS <= 0.
Proof.
  unfold refill, initialRateLimiter. cbn.
  destruct (Z.ltb_spec 0 ((t - t0) / RATE_LIMIT.INTERVAL_MS)).
  - exists t. rewrite Z.sub_diag. split; [|reflexivity].
    f_equal. unfold RATE_LIMIT.BURST. lia.
  - exists t0. split; [reflexivity | assumption].
Qed.

Lemma six_at_once (t t1 : Z) :
  (t - t1) / RATE_LIMIT.INTERVAL_MS <= 0 ->
  fst (acquisitions (repeat (t, t) 6) (initialRateLimiter t1))
  = [None; None; None; None; None; Some RATE_LIMIT.INTERVAL_MS].
Proof.
  intros H. unfold initialRateLimiter, RATE_LIMIT.BURST.
  cbn [repeat acquisitions].
  do 5 (rewrite waitForRateLimit_token
          by (rewrite refill_noop by exact H; cbn; lia);
        rewrite refill_noop by exact H;
        cbn [tokens lastRefill lastRequest Z.sub Z.add Z.opp Z.pos_sub
             Pos.pred_double Pos.succ]).
  rewrite waitForRateLimit_empty
    by (rewrite refill_noop by exact H; cbn; lia).
  cbn. rewrite Z.sub_diag. reflexivity.
Qed.

(** C5: from a full bucket, five acquisitions complete without a timer
    whatever the clock reads; a sixth one at the same instant suspends once
    for exactly [INTERVAL_MS] = 1000 ms, the remaining wait
    [INTERVAL_MS - (now - lastRequest)] computed from the state of the
    bucket; and an acquisition never leaves more than [BURST] tokens. *)
Theorem token_bucket_burst_then_wait :
  (forall t0 r1 r2 r3 r4 r5,
     fst (acquisitions [r1; r2; r3; r4; r5] (initialRateLimiter t0))
     = [None; None; None; None; None])
  /\ (forall t0 t,
        fst (acquisitions (repeat (t, t) 6) (initialRateLimiter t0))
        = [None; None; None; None; None; Some RATE_LIMIT.INTERVAL_MS]
        /\ RATE_LIMIT.INTERVAL_MS = 1000 /\ RATE_LIMIT.BURST = 5)
  /\ (forall now now' rl,
        tokens (refill now rl) <= 0 ->
        fst (waitForRateLimit now now' rl)
        = (let waitTime := RATE_LIMIT.INTERVAL_MS - (now - lastRequest rl) in
           if 0 <? waitTime then Some waitTime else None))
  /\ (forall now now' rl,
        tokens rl <= RATE_LIMIT.BURST ->
        tokens (refill now rl) <= RATE_LIMIT.BURST
        /\ tokens (snd (waitForRateLimit now now' rl)) <= RATE_LIMIT.BURST).
Proof.
  split; [|split; [|split]].
  - intros t0 r1 r2 r3 r4 r5.
    apply (acquisitions_within_tokens [r1; r2; r3; r4; r5]);
      cbn; unfold RATE_LIMIT.BURST; lia.
  - intros t0 t. split; [|split; reflexivity].
    destruct (refill_initialRateLimiter t t0) as (t1 & E & H).
    rewrite <- (six_at_once t t1 H), <- E.
    cbn [repeat acquisitions]. rewrite waitForRateLimit_refill. reflexivity.
  - intros now now' rl H. rewrite waitForRateLimit_empty by assumption. reflexivity.
  - intros now now' rl H. split.
    + apply refill_tokens_le, H.
    + apply waitForRateLimit_tokens_le, H.
Qed.

(** The theorem for a bucket created at time 0 and used at time 250. *)
Lemma token_bucket_burst_then_wait_witness :
  fst (acquisitions (repeat (250, 250) 6) (initialRateLimiter 0))
  = [None; None; None; None; None; Some 1000]
  /\ fst (waitForRateLimit 250 1250
            {| lastRequest := 250; tokens := 0; lastRefill := 0 |})
     = Some 1000
  /\ tokens (snd (waitForRateLimit 5000 5000
                    {| lastRequest := 250; tokens := 3; lastRefill := 0 |}))
     <= 5.
Proof.
  destruct token_bucket_burst_then_wait as (_ & H2 & H3 & H4).
  split; [|split].
  - exact (proj1 (H2 0 250)).
  - apply (H3 250 1250 {| lastRequest := 250; tokens := 0; lastRefill := 0 |}).
    vm_compute. discriminate.
  - apply (H4 5000 5000 {| lastRequest := 250; tokens := 3; lastRefill := 0 |}).
    vm_compute. discriminate.
Defined.

End RateLimiterFacts.

(** ** The retrying request *)

Section RequestFacts.
Import DiabetesMClient.
Context {T : Type} (w : World T).

(** Induction along the retries: a call with [retryCount] may only call
    itself with [retryCount + 1], and only below [MAX_RETRIES]. *)
Lemma request_induction (P : Z -> ClientState -> Prop) :
  (forall retryCount s,
     (retryCount < RETRY_CONFIG.MAX_RETRIES -> forall s', P (retryCount + 1) s') ->
     P retryCount s) ->
  forall retryCount s, P retryCount s.
Proof.
  intros step retryCount.
  remember (Z.to_nat (RETRY_CONFIG.MAX_RETRIES - retryCount)) as n eqn:En.
  revert retryCount En.
  induction n as [n IH] using lt_wf_ind. intros retryCount En s.
  apply step. intros Hlt s'.
  apply (IH (Z.to_nat (RETRY_CONFIG.MAX_RETRIES - (retryCount + 1)))); [|reflexivity].
  subst n. unfold RETRY_CONFIG.MAX_RETRIES in *. lia.
Qed.

Ltac innermost_scrutinee x :=
  match x with
  | context [match ?y with _ => _ end] => innermost_scrutinee y
  | _ => x
  end.

Ltac case_request IH :=
  repeat first
    [ solve [apply IH; assumption]
    | solve [apply IH; unfold RETRY_CONFIG.MAX_RETRIES in *; lia]
    | match goal with
      | |- context [match ?x with _ => _ end] =>
          let y := innermost_scrutinee x in
          lazymatch y with
          | request _ _ _ _ _ _ => fail
          | _ => destruct y eqn:?
          end
      end ].

(** Whatever the environment does, [request] either returns a result of
    the discriminated type or is rejected with the very error of
    [ensureAuthenticated], which it calls outside its [try] block. *)
Lemma request_result_or_login_failure (method endpoint : string)
    (body : option js_string) :
  forall retryCount s,
  match request w method endpoint body retryCount s with
  | (Ok r, _) => discriminated r
  | (Err e, s') =>
      exists s1, isAuthenticated s1 = false
                 /\ ensureAuthenticated w s1 = (Err e, s')
  end.
Proof.
  apply request_induction. intros retryCount s IH.
  rewrite request_equation_1. cbv beta zeta. unfold failure, readClock.
  destruct (ensureAuthenticated w (rateLimitStep w s)) as [[[]|e] s1] eqn:E.
  2:{ exists (rateLimitStep w s). split; [|exact E].
      revert E. unfold ensureAuthenticated.
      destruct (isAuthenticated (rateLimitStep w s)); intros E; [discriminate E | reflexivity]. }
  case_request IH.
  all: try (right; cbn; repeat split; eexists; split; [reflexivity|]; cbn; tauto).
  all: left; cbn; repeat split; discriminate.
Qed.

Lemma ensureAuthenticated_rejected (s s' : ClientState) (e : Thrown) :
  ensureAuthenticated w s = (Err e, s') ->
  login w (logins s) = LoginResolved false \/ login w (logins s) = LoginRejected e.
Proof.
  unfold ensureAuthenticated.
  destruct (isAuthenticated s); [discriminate|].
  destruct (login w (logins s)) as [[]|e']; intros E; inversion E; subst; auto.
Qed.

Lemma ensureAuthenticated_authenticated (s : ClientState) :
  isAuthenticated s = true -> ensureAuthenticated w s = (Ok tt, s).
Proof. intros H. unfold ensureAuthenticated. rewrite H. reflexivity. Qed.

Lemma retryDelays_app (ts ts' : list Timer) :
  retryDelays (ts ++ ts') = retryDelays ts ++ retryDelays ts'.
Proof. apply flat_map_app. Qed.

Lemma rateLimitStep_preserves (s : ClientState) :
  isAuthenticated (rateLimitStep w s) = isAuthenticated s
  /\ fetches (rateLimitStep w s) = fetches s
  /\ httpCalls (rateLimitStep w s) = httpCalls s
  /\ logins (rateLimitStep w s) = logins s
  /\ retryDelays (timers (rateLimitStep w s)) = retryDelays (timers s).
Proof.
  unfold rateLimitStep.
  destruct (waitForRateLimit _ _ _) as [[ms|] rl]; cbn;
    rewrite retryDelays_app, app_nil_r; auto.
Qed.

Lemma retriedAfter_facts delay method endpoint body s :
  isAuthenticated (retriedAfter w delay method endpoint body s) = isAuthenticated s
  /\ fetches (retriedAfter w delay method endpoint body s) = S (fetches s)
  /\ httpCalls (retriedAfter w delay method endpoint body s) = S (httpCalls s)
  /\ logins (retriedAfter w delay method endpoint body s) = logins s
  /\ retryDelays (timers (retriedAfter w delay method endpoint body s))
     = retryDelays (timers s) ++ [delay].
Proof.
  destruct (rateLimitStep_preserves s) as (Ha & Hf & Hc & Hl & Ht).
  unfold retriedAfter, sleep, doFetch. cbn.
  rewrite retryDelays_app, Ha, Hf, Hc, Hl, Ht. auto.
Qed.

Ltac known_status H :=
  cbn [In] in H;
  repeat (destruct H as [H|H]; [rewrite <- H; clear H|]); [..|destruct H].

(** An attempt below [MAX_RETRIES] that is answered with a retryable
    status is followed by the next attempt, after the delay of its
    branch. *)
Lemma request_retries method endpoint body retryCount s r :
  retryCount < RETRY_CONFIG.MAX_RETRIES ->
  isAuthenticated s = true ->
  answer w method endpoint body (fetches s) r ->
  In (status r) RETRY_CONFIG.RETRYABLE_STATUS_CODES ->
  request w method endpoint body retryCount s
  = request w method endpoint body (retryCount + 1)
      (retriedAfter w (retryDelay retryCount r) method endpoint body s).
Proof.
  intros Hlt Ha Hf Hs. unfold answer in Hf.
  destruct (rateLimitStep_preserves s) as (Ha' & Hf' & _).
  rewrite request_equation_1. cbv beta zeta.
  rewrite ensureAuthenticated_authenticated by congruence.
  unfold retriedAfter, retryDelay, doFetch. rewrite Hf', Hf. cbn [snd].
  unfold RETRY_CONFIG.RETRYABLE_STATUS_CODES in Hs.
  destruct (Z.eqb_spec (status r) 429) as [E|E].
  - rewrite E. cbn.
    destruct (Z_lt_dec retryCount RETRY_CONFIG.MAX_RETRIES); [reflexivity | contradiction].
  - revert E. known_status Hs; intros E; try contradiction; cbn;
      (destruct (Z_lt_dec retryCount RETRY_CONFIG.MAX_RETRIES);
       [reflexivity | contradiction]).
Qed.

(** The attempt at [MAX_RETRIES] returns a failure: [RATE_LIMITED] for a
    429, [INVALID_RESPONSE] for the other retryable statuses, or
    [NETWORK_ERROR] when the body of the error cannot be read. *)
Lemma request_last_attempt method endpoint body retryCount s r :
  ~ retryCount < RETRY_CONFIG.MAX_RETRIES ->
  isAuthenticated s = true ->
  answer w method endpoint body (fetches s) r ->
  In (status r) RETRY_CONFIG.RETRYABLE_STATUS_CODES ->
  exists a s',
    request w method endpoint body retryCount s = (Ok a, s')
    /\ fetches s' = S (fetches s)
    /\ httpCalls s' = S (httpCalls s)
    /\ logins s' = logins s
    /\ retryDelays (timers s') = retryDelays (timers s)
    /\ success a = false
    /\ exists e, error a = Some e
                 /\ if status r =? 429 then code e = RATE_LIMITED
                    else code e = INVALID_RESPONSE \/ code e = NETWORK_ERROR.
Proof.
  intros Hlt Ha Hf Hs. unfold answer in Hf.
  destruct (rateLimitStep_preserves s) as (Ha' & Hf' & Hc' & Hl' & Ht').
  rewrite request_equation_1. cbv beta zeta.
  rewrite ensureAuthenticated_authenticated by congruence.
  unfold doFetch. rewrite Hf', Hf.
  assert (H401 : (status r =? 401) = false)
    by (unfold RETRY_CONFIG.RETRYABLE_STATUS_CODES in Hs; known_status Hs; reflexivity).
  rewrite H401.
  destruct (Z_lt_dec retryCount RETRY_CONFIG.MAX_RETRIES); [contradiction|].
  destruct (Z.eqb_spec (status r) 429) as [E|E].
  - unfold failure, readClock; cbn.
    do 2 eexists; split; [reflexivity|]; cbn -[retryDelays].
    rewrite ?Hf', ?Hc', ?Hl', ?Ht'.
    repeat split. eexists; split; reflexivity.
  - assert (Hok : ok r = false).
    { unfold ok. unfold RETRY_CONFIG.RETRYABLE_STATUS_CODES in Hs.
      known_status Hs; reflexivity. }
    rewrite Hok. cbn [negb].
    destruct (retryable (status r)), (text r) as [errorBody|e];
      try destruct (isAbortError e);
      unfold failure, readClock; cbn;
      (do 2 eexists; split; [reflexivity|]; cbn -[retryDelays];
       rewrite ?Hf', ?Hc', ?Hl', ?Ht';
       repeat split; eexists; split; [reflexivity|]; cbn; auto).
Qed.

Lemma ensureAuthenticated_counts (s s' : ClientState) r :
  ensureAuthenticated w s = (r, s') ->
  fetches s' = fetches s
  /\ (logins s' <= logins s + 1)%nat
  /\ (httpCalls s' = httpCalls s
      \/ httpCalls s' = (httpCalls s + loginRequests w (logins s))%nat).
Proof.
  unfold ensureAuthenticated.
  destruct (isAuthenticated s); [|destruct (login w (logins s)) as [[]|]];
    intros E; inversion E; cbn; repeat split; auto; lia.
Qed.

Lemma handleAuthError_counts (s s' : ClientState) r :
  handleAuthError w s = (r, s') ->
  fetches s' = fetches s
  /\ (logins s' <= logins s + 1)%nat
  /\ (httpCalls s' = httpCalls s
      \/ httpCalls s' = (httpCalls s + loginRequests w (logins s))%nat).
Proof.
  unfold handleAuthError. cbv zeta.
  destruct (deleteTokens w (fetches (loggedOut s)));
    [|destruct (login w (logins (loggedOut s)))];
    intros E; inversion E; cbn; repeat split; auto; lia.
Qed.

Lemma doFetch_counts method endpoint body (s s' : ClientState) r :
  doFetch w method endpoint body s = (r, s') ->
  fetches s' = S (fetches s) /\ logins s' = logins s /\ httpCalls s' = S (httpCalls s).
Proof. unfold doFetch. intros E; inversion E; auto. Qed.

(** Whatever the environment does, a call with [retryCount] makes at most
    [k = MAX_RETRIES - retryCount + 1] calls of [fetch] and [2 k] calls of
    [login()]; when a [login()] sends at most two requests, that is at
    most [5 k] HTTP requests. *)
Lemma request_calls_bounded (method endpoint : string) (body : option js_string) :
  forall retryCount s,
  let k := (Z.to_nat (RETRY_CONFIG.MAX_RETRIES - retryCount) + 1)%nat in
  let s' := snd (request w method endpoint body retryCount s) in
  (fetches s' <= fetches s + k)%nat
  /\ (logins s' <= logins s + 2 * k)%nat
  /\ ((forall n, (loginRequests w n <= 2)%nat) ->
      (httpCalls s' <= httpCalls s + 5 * k)%nat).
Proof.
  apply request_induction. intros retryCount s IH. cbv zeta.
  rewrite request_equation_1. cbv beta zeta. unfold failure, readClock.
  destruct (rateLimitStep_preserves s) as (_ & Hf & Hc & Hl & _).
  destruct (ensureAuthenticated w (rateLimitStep w s)) as [[[]|e] s1] eqn:E;
    apply ensureAuthenticated_counts in E; destruct E as (Ef & El & Ec).
  2:{ cbn [snd]. repeat split; try lia.
      intros Hreq. pose proof (Hreq (logins (rateLimitStep w s))). lia. }
  destruct (doFetch w method endpoint body s1) as [r s2] eqn:F.
  apply doFetch_counts in F. destruct F as (Ff & Fl & Fc).
  assert (Hrec : forall s3, retryCount < RETRY_CONFIG.MAX_RETRIES ->
            fetches s3 = fetches s2 ->
            (logins s3 <= logins s2 + 1)%nat ->
            (httpCalls s3 = httpCalls s2
             \/ exists n, httpCalls s3 = (httpCalls s2 + loginRequests w n)%nat) ->
            let k := (Z.to_nat (RETRY_CONFIG.MAX_RETRIES - retryCount) + 1)%nat in
            let s' := snd (request w method endpoint body (retryCount + 1) s3) in
            (fetches s' <= fetches s + k)%nat
            /\ (logins s' <= logins s + 2 * k)%nat
            /\ ((forall n, (loginRequests w n <= 2)%nat) ->
                (httpCalls s' <= httpCalls s + 5 * k)%nat)).
  { intros s3 Hlt H3f H3l H3c. cbv zeta.
    destruct (IH Hlt s3) as (I1 & I2 & I3).
    unfold RETRY_CONFIG.MAX_RETRIES in *.
    repeat split; try lia.
    intros Hreq. specialize (I3 Hreq).
    pose proof (Hreq (logins (rateLimitStep w s))).
    destruct H3c as [H3c | [n H3c]]; [|pose proof (Hreq n)]; lia. }
  assert (Hend : forall s3,
            fetches s3 = fetches s2 ->
            (logins s3 <= logins s2 + 1)%nat ->
            (httpCalls s3 = httpCalls s2
             \/ exists n, httpCalls s3 = (httpCalls s2 + loginRequests w n)%nat) ->
            let k := (Z.to_nat (RETRY_CONFIG.MAX_RETRIES - retryCount) + 1)%nat in
            (fetches s3 <= fetches s + k)%nat
            /\ (logins s3 <= logins s + 2 * k)%nat
            /\ ((forall n, (loginRequests w n <= 2)%nat) ->
                (httpCalls s3 <= httpCalls s + 5 * k)%nat)).
  { intros s3 H3f H3l H3c. cbv zeta.
    repeat split; try lia.
    intros Hreq. pose proof (Hreq (logins (rateLimitStep w s))).
    destruct H3c as [H3c | [n H3c]]; [|pose proof (Hreq n)]; lia. }
  clear IH.
  repeat first
    [ match goal with
      | H : handleAuthError _ _ = _ |- _ =>
          apply handleAuthError_counts in H; destruct H as (? & ? & [?|?])
      | |- context [match ?x with _ => _ end] =>
          let y := innermost_scrutinee x in
          lazymatch y with
          | request _ _ _ _ _ _ => fail
          | _ => destruct y eqn:?
          end
      end ].
  all: cbn [snd].
  all: first
    [ apply Hrec; cbn [sleep fetches logins httpCalls];
      [ first [assumption | unfold RETRY_CONFIG.MAX_RETRIES; lia]
      | congruence | lia | first [left; congruence | right; eexists; eassumption] ]
    | apply Hend; cbn [fetches logins httpCalls];
      [ congruence | lia | first [left; congruence | right; eexists; eassumption] ] ].
Qed.

End RequestFacts.

Section RequestClaims.
Import DiabetesMClient.

(** The delays of the rate-limit branch: the seconds of the Retry-After
    header, 60 when there is none, and NaN when the header is an HTTP
    date. *)
Lemma retry_after_delays :
  retryAfterDelay {| status := 429; retryAfter := Some (js "120");
                     text := Ok []; json := Ok tt |} = Some 120000
  /\ retryAfterDelay {| status := 429; retryAfter := None;
                        text := Ok []; json := Ok tt |} = Some 60000
  /\ retryAfterDelay {| status := 429; retryAfter := Some [];
                        text := Ok []; json := Ok tt |} = Some 60000
  /\ retryAfterDelay {| status := 429;
                        retryAfter := Some (js "Wed, 21 Oct 2015 07:28:00 GMT");
                        text := Ok []; json := Ok tt |} = None.
Proof. repeat split. Qed.

(** On an authenticated client, when every attempt is answered with a
    retryable status, [request] makes four calls of [fetch] and no login,
    waits after each of the first three the delay of its branch, and
    returns the failure of the last answer. *)
Lemma request_retryable_run {T : Type} (w : World T)
    (method endpoint : string) (body : option js_string) (s : ClientState) :
  isAuthenticated s = true ->
  always_answers w RETRY_CONFIG.RETRYABLE_STATUS_CODES ->
  exists a s' r0 r1 r2 r3,
    request w method endpoint body 0 s = (Ok a, s')
    /\ answer w method endpoint body (fetches s) r0
    /\ answer w method endpoint body (fetches s + 1) r1
    /\ answer w method endpoint body (fetches s + 2) r2
    /\ answer w method endpoint body (fetches s + 3) r3
    /\ In (status r0) RETRY_CONFIG.RETRYABLE_STATUS_CODES
    /\ In (status r1) RETRY_CONFIG.RETRYABLE_STATUS_CODES
    /\ In (status r2) RETRY_CONFIG.RETRYABLE_STATUS_CODES
    /\ In (status r3) RETRY_CONFIG.RETRYABLE_STATUS_CODES
    /\ fetches s' = (fetches s + 4)%nat
    /\ httpCalls s' = (httpCalls s + 4)%nat
    /\ logins s' = logins s
    /\ retryDelays (timers s')
       = retryDelays (timers s) ++ [retryDelay 0 r0; retryDelay 1 r1; retryDelay 2 r2]
    /\ success a = false
    /\ exists e, error a = Some e
                 /\ if status r3 =? 429 then code e = RATE_LIMITED
                    else code e = INVALID_RESPONSE \/ code e = NETWORK_ERROR.
Proof.
  intros Ha Hw.
  destruct (Hw (fetches s) method endpoint body) as (r0 & F0 & S0).
  set (s1 := retriedAfter w (retryDelay 0 r0) method endpoint body s).
  destruct (retriedAfter_facts w (retryDelay 0 r0) method endpoint body s)
    as (A1 & N1 & C1 & L1 & D1).
  fold s1 in A1, N1, C1, L1, D1.
  destruct (Hw (fetches s1) method endpoint body) as (r1 & F1 & S1).
  set (s2 := retriedAfter w (retryDelay 1 r1) method endpoint body s1).
  destruct (retriedAfter_facts w (retryDelay 1 r1) method endpoint body s1)
    as (A2 & N2 & C2 & L2 & D2).
  fold s2 in A2, N2, C2, L2, D2.
  destruct (Hw (fetches s2) method endpoint body) as (r2 & F2 & S2).
  set (s3 := retriedAfter w (retryDelay 2 r2) method endpoint body s2).
  destruct (retriedAfter_facts w (retryDelay 2 r2) method endpoint body s2)
    as (A3 & N3 & C3 & L3 & D3).
  fold s3 in A3, N3, C3, L3, D3.
  destruct (Hw (fetches s3) method endpoint body) as (r3 & F3 & S3).
  assert (E : request w method endpoint body 0 s = request w method endpoint body 3 s3).
  { rewrite (request_retries w method endpoint body 0 s r0)
      by (assumption || reflexivity).
    fold s1. change (0 + 1) with 1.
    rewrite (request_retries w method endpoint body 1 s1 r1)
      by (assumption || reflexivity || congruence).
    fold s2. change (1 + 1) with 2.
    rewrite (request_retries w method endpoint body 2 s2 r2)
      by (assumption || reflexivity || congruence).
    reflexivity. }
  destruct (request_last_attempt w method endpoint body 3 s3 r3)
    as (a & s' & R & N & C & L & D & Hs & Herr);
    [unfold RETRY_CONFIG.MAX_RETRIES; lia | congruence | assumption | assumption |].
  rewrite <- E in R.
  exists a, s', r0, r1, r2, r3. unfold answer.
  replace (fetches s + 1)%nat with (fetches s1) by lia.
  replace (fetches s + 2)%nat with (fetches s2) by lia.
  replace (fetches s + 3)%nat with (fetches s3) by lia.
  repeat (split; [first [assumption | lia]|]).
  split.
  - rewrite D, D3, D2, D1, <- !app_assoc. reflexivity.
  - split; assumption.
Qed.

(** C4 (amended): on an authenticated client, when every attempt is
    answered with a retryable status, [request] sends exactly
    [MAX_RETRIES + 1] = 4 HTTP requests and then returns a failure.  When
    the statuses are 408, 500, 502, 503 or 504, it waits
    [min(INITIAL_DELAY * BACKOFF_FACTOR ^ attempt, MAX_DELAY)] = 1000, 2000
    and 4000 ms between the attempts and the failure has the code
    [INVALID_RESPONSE] or [NETWORK_ERROR].  After a 429 it waits
    [parseInt(Retry-After || '60') * 1000] ms instead, which is NaN when
    the header is not a number, and when the last answer is a 429 the
    failure has the code [RATE_LIMITED].  Whatever the server answers,
    [request] terminates after at most four calls of [fetch] and eight of
    [login()], which is at most 20 HTTP requests when a [login()] sends at
    most two. *)
Theorem request_gives_up_after_backoff {T : Type} (w : World T)
    (method endpoint : string) (body : option js_string) (s : ClientState) :
  ((fetches (snd (request w method endpoint body 0 s)) <= fetches s + 4)%nat
   /\ (logins (snd (request w method endpoint body 0 s)) <= logins s + 8)%nat
   /\ ((forall n, (loginRequests w n <= 2)%nat) ->
       (httpCalls (snd (request w method endpoint body 0 s)) <= httpCalls s + 20)%nat))
  /\ (isAuthenticated s = true ->
      always_answers w backoff_statuses ->
      gives_up_after_backoff w method endpoint body s
      /\ (httpCalls (snd (request w method endpoint body 0 s)) = httpCalls s + 4)%nat
      /\ logins (snd (request w method endpoint body 0 s)) = logins s
      /\ map backoffDelay [0; 1; 2] = [1000; 2000; 4000]
      /\ RETRY_CONFIG.MAX_RETRIES + 1 = 4)
  /\ (isAuthenticated s = true ->
      always_answers w RETRY_CONFIG.RETRYABLE_STATUS_CODES ->
      exists a s' r0 r1 r2 r3,
        request w method endpoint body 0 s = (Ok a, s')
        /\ answer w method endpoint body (fetches s) r0
        /\ answer w method endpoint body (fetches s + 1) r1
        /\ answer w method endpoint body (fetches s + 2) r2
        /\ answer w method endpoint body (fetches s + 3) r3
        /\ httpCalls s' = (httpCalls s + 4)%nat
        /\ logins s' = logins s
        /\ retryDelays (timers s')
           = retryDelays (timers s)
             ++ [retryDelay 0 r0; retryDelay 1 r1; retryDelay 2 r2]
        /\ success a = false
        /\ exists e, error a = Some e
                     /\ if status r3 =? 429 then code e = RATE_LIMITED
                        else code e = INVALID_RESPONSE \/ code e = NETWORK_ERROR).
Proof.
  split; [|split].
  - pose proof (request_calls_bounded w method endpoint body 0 s) as H.
    cbv zeta in H. unfold RETRY_CONFIG.MAX_RETRIES in H.
    change (Z.to_nat (3 - 0) + 1)%nat with 4%nat in H.
    destruct H as (H1 & H2 & H3). repeat split; [lia | lia |].
    intros Hreq. specialize (H3 Hreq). lia.
  - intros Ha Hw.
    assert (Hw' : always_answers w RETRY_CONFIG.RETRYABLE_STATUS_CODES).
    { intros n m u b. destruct (Hw n m u b) as (r & F & S).
      exists r. split; [exact F|].
      unfold backoff_statuses in S. unfold RETRY_CONFIG.RETRYABLE_STATUS_CODES.
      cbn [In] in *. tauto. }
    destruct (request_retryable_run w method endpoint body s Ha Hw')
      as (a & s' & r0 & r1 & r2 & r3 & R & F0 & F1 & F2 & F3 & _ & _ & _ & _
          & N & C & L & D & Hs & e & He & Hc).
    assert (Hback : forall n r c,
              answer w method endpoint body n r -> retryDelay c r = Some (backoffDelay c)
              /\ (status r =? 429) = false).
    { intros n r c F. unfold answer in F.
      destruct (Hw n method endpoint body) as (r' & F' & S').
      rewrite F in F'. inversion F'; subst r'.
      assert (E : (status r =? 429) = false).
      { unfold backoff_statuses in S'. cbn [In] in S'.
        repeat (destruct S' as [S'|S']; [rewrite <- S'; reflexivity|]).
        destruct S'. }
      unfold retryDelay. rewrite E. auto. }
    rewrite R. cbn [snd].
    rewrite (proj1 (Hback _ r0 0 F0)), (proj1 (Hback _ r1 1 F1)),
      (proj1 (Hback _ r2 2 F2)) in D.
    rewrite (proj2 (Hback _ r3 0 F3)) in Hc.
    repeat split; try assumption.
    exists a, s'. repeat split; try assumption; [lia|].
    exists e. split; assumption.
  - intros Ha Hw.
    destruct (request_retryable_run w method endpoint body s Ha Hw)
      as (a & s' & r0 & r1 & r2 & r3 & R & F0 & F1 & F2 & F3 & _ & _ & _ & _
          & N & C & L & D & Hs & Herr).
    exists a, s', r0, r1, r2, r3. repeat (split; [assumption|]). exact Herr.
Qed.

(** The theorem for servers that always answer 503, or always 429, to an
    authenticated client, and for one that always answers 401 to a client
    that has to log in. *)
Lemma request_gives_up_after_backoff_witness :
  gives_up_after_backoff (constantServer 503 (LoginResolved true))
    "GET" "/api/v1/user/profile/get_profile" None (newClient 0 true)
  /\ (exists a s',
        request (constantServer 429 (LoginResolved true))
          "GET" "/api/v1/user/profile/get_profile" None 0 (newClient 0 true)
        = (Ok a, s')
        /\ httpCalls s' = 4%nat
        /\ retryDelays (timers s') = [Some 60000; Some 60000; Some 60000]
        /\ option_map code (error a) = Some RATE_LIMITED)
  /\ (httpCalls (snd (request (constantServer 401 (LoginResolved true))
                        "GET" "/api/v1/user/profile/get_profile" None 0
                        (newClient 0 false))) <= 20)%nat.
Proof.
  split; [|split].
  - destruct (request_gives_up_after_backoff
                (constantServer 503 (LoginResolved true))
                "GET" "/api/v1/user/profile/get_profile" None (newClient 0 true))
      as (_ & H & _).
    apply H.
    + reflexivity.
    + intros n method url body. eexists. split; [reflexivity|].
      cbn. tauto.
  - destruct (request_gives_up_after_backoff
                (constantServer 429 (LoginResolved true))
                "GET" "/api/v1/user/profile/get_profile" None (newClient 0 true))
      as (_ & _ & H).
    destruct H as (a & s' & r0 & r1 & r2 & r3 & R & F0 & F1 & F2 & F3
                   & C & L & D & Hs & e & He & Hc).
    + reflexivity.
    + intros n method url body. eexists. split; [reflexivity|].
      cbn. tauto.
    + exists a, s'.
      unfold answer in F0, F1, F2, F3. cbn in F0, F1, F2, F3.
      inversion F0; subst r0. inversion F1; subst r1.
      inversion F2; subst r2. inversion F3; subst r3.
      split; [exact R|]. split; [exact C|]. split; [exact D|].
      rewrite He. cbn [option_map]. cbn in Hc. rewrite Hc. reflexivity.
  - destruct (request_gives_up_after_backoff
                (constantServer 401 (LoginResolved true))
                "GET" "/api/v1/user/profile/get_profile" None (newClient 0 false))
      as ((_ & _ & H) & _).
    apply H. intros n. cbn. lia.
Defined.

(** C4 as stated fails for the retryable status 429: a server that always
    answers 429 is called four times too, but the client waits the
    Retry-After delay (60 s when the header is absent), not the backoff,
    and the failure is [RATE_LIMITED]. *)
Lemma rate_limited_server_not_backoff :
  isAuthenticated (newClient 0 true) = true
  /\ always_answers (constantServer 429 (LoginResolved true))
       RETRY_CONFIG.RETRYABLE_STATUS_CODES
  /\ ~ gives_up_after_backoff (constantServer 429 (LoginResolved true))
         "GET" "/api/v1/user/profile/get_profile" None (newClient 0 true).
Proof.
  split; [reflexivity|]. split.
  - intros n method url body. eexists. split; [reflexivity|]. cbn. tauto.
  - intros (r & s' & R & _ & D & _). vm_compute in R.
    inversion R; subst. vm_compute in D. discriminate D.
Qed.

(** What the client does with that server. *)
Lemma rate_limited_server_run :
  exists r s',
    request (constantServer 429 (LoginResolved true))
      "GET" "/api/v1/user/profile/get_profile" None 0 (newClient 0 true) = (Ok r, s')
    /\ httpCalls s' = 4%nat
    /\ retryDelays (timers s') = [Some 60000; Some 60000; Some 60000]
    /\ option_map code (error r) = Some RATE_LIMITED.
Proof. do 2 eexists. vm_compute. repeat split. Qed.

(** The requests of [login()] are counted: a server that answers 401, 503,
    503 and 401 to an authenticated client whose logins succeed is sent
    four requests by [request] and two by [login()]. *)
Lemma session_expiry_run :
  let w := {| clock := fun n => 1000 * Z.of_nat n;
              login := fun _ => LoginResolved true;
              loginRequests := fun _ => 1%nat;
              authenticatedAfter := fun _ => false;
              deleteTokens := fun _ => None;
              fetch := fun n _ _ _ =>
                Ok {| status := nth n [401; 503; 503; 401] 401;
                      retryAfter := None; text := Ok [];
                      json := Ok tt |} |} in
  exists r s',
    request w "GET" "/api/v1/user/profile/get_profile" None 0 (newClient 0 true)
    = (Ok r, s')
    /\ fetches s' = 4%nat /\ logins s' = 2%nat /\ httpCalls s' = 6%nat
    /\ option_map code (error r) = Some SESSION_EXPIRED.
Proof. do 2 eexists. vm_compute. repeat split. Qed.

(** C3 (amended): [request] returns every outcome of the exchange with the
    server as a result of the discriminated type: a 401 that
    re-authentication does not cure, rate limiting, a timeout, a network
    error, a status that is not OK, a body that cannot be read.  It is
    rejected only with the error of [authManager.ensureAuthenticated()],
    which it awaits outside its [try] block; when every login succeeds it
    is never rejected. *)
Theorem request_returns_result_unless_login_fails {T : Type} (w : World T)
    (method endpoint : string) (body : option js_string)
    (retryCount : Z) (s : ClientState) :
  match request w method endpoint body retryCount s with
  | (Ok r, _) => discriminated r
  | (Err e, s') =>
      exists s1, isAuthenticated s1 = false
                 /\ ensureAuthenticated w s1 = (Err e, s')
                 /\ login w (logins s1) <> LoginResolved true
  end
  /\ ((forall n, login w n = LoginResolved true) ->
      exists r s', request w method endpoint body retryCount s = (Ok r, s')
                   /\ discriminated r).
Proof.
  pose proof (request_result_or_login_failure w method endpoint body retryCount s) as H.
  destruct (request w method endpoint body retryCount s) as [[r|e] s'].
  - split; [exact H|]. intros _. exists r, s'. split; [reflexivity | exact H].
  - destruct H as (s1 & Hs1 & E).
    destruct (ensureAuthenticated_rejected w s1 s' e E) as [L|L].
    + split.
      * exists s1. repeat split; try assumption. rewrite L. discriminate.
      * intros Hl. rewrite Hl in L. discriminate L.
    + split.
      * exists s1. repeat split; try assumption. rewrite L. discriminate.
      * intros Hl. rewrite Hl in L. discriminate L.
Qed.

(** A server that is down, for a client whose logins succeed. *)
Lemma request_returns_result_unless_login_fails_witness :
  exists r s',
    request (constantServer 503 (LoginResolved true))
      "GET" "/api/v1/user/profile/get_profile" None 0 (newClient 0 false) = (Ok r, s')
    /\ discriminated r.
Proof.
  apply (request_returns_result_unless_login_fails
           (constantServer 503 (LoginResolved true))
           "GET" "/api/v1/user/profile/get_profile" None 0 (newClient 0 false)).
  intros n. reflexivity.
Defined.

(** C3 as stated fails for an authentication failure: with no session
    and a login that does not succeed, [request] is rejected with the error
    thrown by [ensureAuthenticated]. *)
Lemma request_rejected_when_login_fails :
  fst (request (constantServer 200 (LoginResolved false))
         "GET" "/api/v1/user/profile/get_profile" None 0 (newClient 0 false))
  = Err (ErrorObject "Error"
           "Authentication required. Please configure credentials first.").
Proof. vm_compute. reflexivity. Qed.

(** The same after a session expiry: an authenticated client is answered
    401, re-authentication throws for lack of credentials, the catch block
    retries, and the retry is rejected by [ensureAuthenticated]. *)
Lemma request_rejected_after_session_expiry :
  fst (request (constantServer 401
                  (LoginRejected
                     (ErrorObject "Error"
                        "No credentials available. Please provide email and password.")))
         "GET" "/api/v1/user/profile/get_profile" None 0 (newClient 0 true))
  = Err (ErrorObject "Error"
           "No credentials available. Please provide email and password.").
Proof. vm_compute. reflexivity. Qed.

End RequestClaims.

(** ** The encryption service *)

Section EncryptionFacts.
Import EncryptionService.
Context (L : NodeCrypto) (HL : NodeCryptoLaws L) (config : SecurityConfig).

(** The layout salt (64) + iv (16) + authTag (16) + encrypted is cut at the
    offsets that [decrypt] uses. *)
Lemma combined_layout (salt iv authTag encrypted : bytes) :
  length salt = 64%nat -> length iv = 16%nat -> length authTag = 16%nat ->
  let combined := salt ++ iv ++ authTag ++ encrypted in
  subarray combined 0 64 = salt
  /\ subarray combined 64 (64 + 16) = iv
  /\ subarray combined (64 + 16) (64 + 16 + 16) = authTag
  /\ subarray_from combined (64 + 16 + 16) = encrypted.
Proof.
  intros Hs Hi Ht. unfold subarray, subarray_from. cbn zeta.
  change (Z.to_nat (64 - 0)) with 64%nat.
  change (Z.to_nat 0) with 0%nat.
  change (Z.to_nat (64 + 16 - 64)) with 16%nat.
  change (Z.to_nat 64) with 64%nat.
  change (Z.to_nat (64 + 16 + 16 - (64 + 16))) with 16%nat.
  change (Z.to_nat (64 + 16)) with 80%nat.
  change (Z.to_nat (64 + 16 + 16)) with 96%nat.
  repeat split.
  - cbn [skipn]. apply take_app_length'. lia.
  - rewrite drop_app_length' by lia. apply take_app_length'. lia.
  - rewrite (app_assoc salt iv).
    rewrite drop_app_length' by (rewrite length_app; lia).
    apply take_app_length'. lia.
  - rewrite (app_assoc salt iv), (app_assoc (salt ++ iv) authTag).
    apply drop_app_length'. rewrite !length_app. lia.
Qed.

(** Decrypting what [encrypt] produced gives the plaintext as the 'utf8'
    codec carries it. *)
Lemma decrypt_encrypt_utf8 (plaintext : js_string) (masterKey : bytes)
    (g : RandomSource L) (now : Z) :
  fixed_sizes config ->
  Forall is_byte (Utf8.encode plaintext) ->
  exists blob g',
    encrypt L config plaintext masterKey g now = (Ok blob, g')
    /\ version blob = ENCRYPTION_VERSION
    /\ decrypt L config blob masterKey = Ok (Utf8.decode (Utf8.encode plaintext)).
Proof.
  intros (Hk & Hi & Hs & Ht) Hb. unfold encrypt, decrypt.
  rewrite Hk, Hi, Hs, Ht.
  pose proof (randomBytes_length L HL g 64 ltac:(lia)) as Hsalt.
  pose proof (randomBytes_bytes L HL g 64) as Bsalt.
  destruct (randomBytes L g 64) as [salt g1]. cbn [fst] in Hsalt, Bsalt.
  pose proof (randomBytes_length L HL g1 16 ltac:(lia)) as Hiv.
  pose proof (randomBytes_bytes L HL g1 16) as Biv.
  destruct (randomBytes L g1 16) as [iv g2]. cbn [fst] in Hiv, Biv.
  set (key := pbkdf2Sync L masterKey salt (pbkdf2Iterations config) 32).
  assert (Hkey : length key = 32%nat)
    by (subst key; rewrite (pbkdf2Sync_length L HL) by lia; reflexivity).
  rewrite (cipheriv_accepts_sizes L HL key iv) by assumption.
  pose proof (gcm_seal_bytes L HL key iv (Utf8.encode plaintext)) as [Bct Btag].
  pose proof (gcm_seal_tag_length L HL key iv (Utf8.encode plaintext)) as Htag.
  pose proof (gcm_open_seal L HL key iv (Utf8.encode plaintext) Hb) as Hopen.
  destruct (gcm_seal L key iv (Utf8.encode plaintext)) as [encrypted authTag].
  cbn [fst snd] in *.
  do 2 eexists. split; [reflexivity|]. split; [reflexivity|].
  cbn [version data]. rewrite Z.eqb_refl. cbn [negb].
  rewrite (base64_decode_encode L HL)
    by (repeat (apply Forall_app; split); assumption).
  destruct (combined_layout salt iv authTag encrypted) as (E1 & E2 & E3 & E4);
    [assumption..|].
  cbn zeta in E1, E2, E3, E4. rewrite E1, E2, E3, E4. fold key.
  rewrite (cipheriv_accepts_sizes L HL key iv) by assumption.
  rewrite (setAuthTag_accepts_16 L HL authTag) by assumption.
  cbn [negb]. rewrite Hopen. reflexivity.
Qed.

(** [decrypt] by cases on the version, on what the library accepts and on
    the verification of the tag. *)
Lemma decrypt_cases (blob : EncryptedData) (masterKey : bytes) :
  decrypt L config blob masterKey
  = if negb (version blob =? ENCRYPTION_VERSION)
    then Err (UnsupportedVersion (version blob))
    else if negb (cipheriv_accepts L (keyOf L config blob masterKey) (ivOf L config blob))
    then Err InvalidIV
    else if negb (setAuthTag_accepts L (authTagOf L config blob))
    then Err InvalidAuthTag
    else match opened L config blob masterKey with
         | Some decrypted => Ok (Utf8.decode decrypted)
         | None => Err DecryptionFailed
         end.
Proof. reflexivity. Qed.

(** A payload shorter than the header leaves a short tag and no
    ciphertext. *)
Lemma short_payload_slices (blob : EncryptedData) :
  fixed_sizes config ->
  (length (payload L blob) < 96)%nat ->
  (length (authTagOf L config blob) < 16)%nat
  /\ encryptedOf L config blob = []
  /\ ((length (payload L blob) <= 64)%nat -> ivOf L config blob = []).
Proof.
  intros (Hk & Hi & Hs & Ht) Hlen.
  unfold authTagOf, encryptedOf, ivOf, subarray, subarray_from.
  rewrite Hi, Hs, Ht.
  change (Z.to_nat (64 + 16 + 16 - (64 + 16))) with 16%nat.
  change (Z.to_nat (64 + 16 - 64)) with 16%nat.
  change (Z.to_nat (64 + 16)) with 80%nat.
  change (Z.to_nat (64 + 16 + 16)) with 96%nat.
  change (Z.to_nat 64) with 64%nat.
  repeat split.
  - rewrite length_take, length_drop. lia.
  - apply drop_ge. lia.
  - intros H. rewrite drop_ge by lia. reflexivity.
Qed.

(** The lengths of the IV and of the tag that [decrypt] takes from a
    payload. *)
Lemma payload_slice_lengths (blob : EncryptedData) :
  fixed_sizes config ->
  length (ivOf L config blob) = Nat.min 16 (length (payload L blob) - 64)
  /\ length (authTagOf L config blob) = Nat.min 16 (length (payload L blob) - 80).
Proof.
  intros (Hk & Hi & Hs & Ht).
  unfold authTagOf, ivOf, subarray. rewrite Hi, Hs, Ht.
  change (Z.to_nat (64 + 16 + 16 - (64 + 16))) with 16%nat.
  change (Z.to_nat (64 + 16 - 64)) with 16%nat.
  change (Z.to_nat (64 + 16)) with 80%nat.
  change (Z.to_nat 64) with 64%nat.
  rewrite !length_take, !length_drop. split; reflexivity.
Qed.

(** Below 96 bytes, the tag that is left has one of GCM's lengths only
    when the payload has 84, 88 or 92 to 95 bytes. *)
Lemma short_tag_lengths (n : nat) :
  (n < 96)%nat ->
  validGcmTagLength (Nat.min 16 (n - 80)) = true <-> In n [84; 88; 92; 93; 94; 95]%nat.
Proof.
  intros Hn. unfold validGcmTagLength. cbn [In].
  rewrite !orb_true_iff, andb_true_iff, !Nat.eqb_eq, !Nat.leb_le. lia.
Qed.

(** [decrypt] on a payload shorter than the header, with the rules of
    node:crypto for the IV and the tag. *)
Lemma short_payload_decrypt (blob : EncryptedData) (masterKey : bytes) :
  NodeGcmLaws L ->
  fixed_sizes config ->
  (length (payload L blob) < 96)%nat ->
  (~ In (length (payload L blob)) [84; 88; 92; 93; 94; 95]%nat ->
   is_err (decrypt L config blob masterKey) = true)
  /\ (version blob = 1 ->
      In (length (payload L blob)) [84; 88; 92; 93; 94; 95]%nat ->
      decrypt L config blob masterKey
      = match opened L config blob masterKey with
        | Some _ => Ok []
        | None => Err DecryptionFailed
        end).
Proof.
  intros HG Hc Hlen.
  destruct (payload_slice_lengths blob Hc) as (Hiv & Htag).
  destruct (short_payload_slices blob Hc Hlen) as (_ & Hct & Hempty).
  pose proof (short_tag_lengths _ Hlen) as Hvalid.
  rewrite decrypt_cases, (setAuthTag_accepts_valid L HG), Htag.
  split.
  - intros Hn.
    destruct (validGcmTagLength _) eqn:V; [exfalso; apply Hn, Hvalid; reflexivity|].
    destruct (negb (version blob =? ENCRYPTION_VERSION)); [reflexivity|].
    destruct (negb (cipheriv_accepts L _ _)); reflexivity.
  - intros Hv Hn. rewrite (proj2 Hvalid Hn), Hv. cbn [negb Z.eqb Pos.eqb ENCRYPTION_VERSION].
    rewrite (cipheriv_accepts_sizes L HL).
    + cbn [negb]. unfold opened. rewrite Hct.
      destruct (gcm_open L _ _ _ []) as [pt|] eqn:O; [|reflexivity].
      apply (gcm_open_length L HG) in O. destruct pt; [reflexivity | discriminate O].
    + unfold keyOf. destruct Hc as (Hk & _).
      rewrite Hk, (pbkdf2Sync_length L HL) by lia. reflexivity.
    + rewrite Hiv. cbn [In] in Hn. lia.
Qed.

(** The layout of a payload cut after 92 bytes: the first 12 bytes of the
    tag are left, and no ciphertext. *)
Lemma truncated_layout (salt iv authTag : bytes) :
  length salt = 64%nat -> length iv = 16%nat -> length authTag = 16%nat ->
  let combined := firstn 92 (salt ++ iv ++ authTag ++ []) in
  combined = salt ++ iv ++ firstn 12 authTag
  /\ subarray combined 0 64 = salt
  /\ subarray combined 64 (64 + 16) = iv
  /\ subarray combined (64 + 16) (64 + 16 + 16) = firstn 12 authTag
  /\ subarray_from combined (64 + 16 + 16) = [].
Proof.
  intros Hs Hi Ht. cbv zeta.
  assert (E : firstn 92 (salt ++ iv ++ authTag ++ []) = salt ++ iv ++ firstn 12 authTag).
  { rewrite app_nil_r.
    rewrite take_app_ge by lia. rewrite take_app_ge by lia.
    rewrite Hs, Hi. reflexivity. }
  rewrite E. split; [reflexivity|].
  assert (H12 : length (firstn 12 authTag) = 12%nat) by (rewrite length_take; lia).
  unfold subarray, subarray_from.
  change (Z.to_nat (64 - 0)) with 64%nat.
  change (Z.to_nat 0) with 0%nat.
  change (Z.to_nat (64 + 16 - 64)) with 16%nat.
  change (Z.to_nat 64) with 64%nat.
  change (Z.to_nat (64 + 16 + 16 - (64 + 16))) with 16%nat.
  change (Z.to_nat (64 + 16)) with 80%nat.
  change (Z.to_nat (64 + 16 + 16)) with 96%nat.
  repeat split.
  - cbn [skipn]. apply take_app_length'. lia.
  - rewrite drop_app_length' by lia. apply take_app_length'. lia.
  - rewrite (app_assoc salt iv).
    rewrite drop_app_length' by (rewrite length_app; lia).
    apply take_ge. lia.
  - apply drop_ge. rewrite !length_app. lia.
Qed.

(** With any library that meets the laws and treats tags as GCM does (the
    ciphertext is as long as the plaintext, a tag of 12 bytes is accepted
    and is compared with the first 12 bytes of the tag computed), the blob
    of the empty string still decrypts after its payload has been cut from
    96 to 92 bytes. *)
Lemma truncated_blob_decrypts_with_any_library (masterKey : bytes)
    (g : RandomSource L) (now : Z) :
  fixed_sizes config ->
  (forall key iv pt, length (fst (gcm_seal L key iv pt)) = length pt) ->
  (forall tag, length tag = 12%nat -> setAuthTag_accepts L tag = true) ->
  (forall key iv tag ct pt,
     length tag = 16%nat ->
     gcm_open L key iv tag ct = Some pt ->
     gcm_open L key iv (firstn 12 tag) ct = Some pt) ->
  exists blob g',
    encrypt L config [] masterKey g now = (Ok blob, g')
    /\ length (payload L blob) = 96%nat
    /\ length (payload L (truncated L 92 blob)) = 92%nat
    /\ decrypt L config (truncated L 92 blob) masterKey = Ok [].
Proof.
  intros (Hk & Hi & Hs & Ht) Hlen Hacc Hprefix. unfold encrypt, decrypt.
  rewrite Hk, Hi, Hs, Ht.
  pose proof (randomBytes_length L HL g 64 ltac:(lia)) as Hsalt.
  pose proof (randomBytes_bytes L HL g 64) as Bsalt.
  destruct (randomBytes L g 64) as [salt g1]. cbn [fst] in Hsalt, Bsalt.
  change (length salt = 64%nat) in Hsalt.
  pose proof (randomBytes_length L HL g1 16 ltac:(lia)) as Hiv.
  pose proof (randomBytes_bytes L HL g1 16) as Biv.
  destruct (randomBytes L g1 16) as [iv g2]. cbn [fst] in Hiv, Biv.
  change (length iv = 16%nat) in Hiv.
  set (key := pbkdf2Sync L masterKey salt (pbkdf2Iterations config) 32).
  assert (Hkey : length key = 32%nat)
    by (subst key; rewrite (pbkdf2Sync_length L HL) by lia; reflexivity).
  rewrite (cipheriv_accepts_sizes L HL key iv) by assumption.
  change (Utf8.encode []) with (@nil Z).
  pose proof (gcm_seal_bytes L HL key iv []) as [Bct Btag].
  pose proof (gcm_seal_tag_length L HL key iv []) as Htag.
  pose proof (gcm_open_seal L HL key iv [] (List.Forall_nil _)) as Hopen.
  pose proof (Hlen key iv []) as Hct.
  destruct (gcm_seal L key iv []) as [encrypted authTag].
  cbn [fst snd] in *.
  destruct encrypted; [|discriminate Hct].
  assert (Hcombined : Forall is_byte (salt ++ iv ++ authTag ++ []))
    by (repeat (apply Forall_app; split); assumption).
  destruct (truncated_layout salt iv authTag) as (E0 & E1 & E2 & E3 & E4);
    [assumption..|].
  cbv zeta in E0, E1, E2, E3, E4.
  do 2 eexists. split; [reflexivity|].
  unfold payload, truncated. cbn [data version].
  rewrite !(base64_decode_encode L HL (salt ++ iv ++ authTag ++ [])) by assumption.
  rewrite (base64_decode_encode L HL)
    by (apply Forall_take; assumption).
  split; [rewrite !length_app; cbn [length]; lia|].
  split; [rewrite length_take, !length_app; cbn [length]; lia|].
  rewrite Z.eqb_refl. cbn [negb].
  rewrite E1, E2, E3, E4. fold key.
  rewrite (cipheriv_accepts_sizes L HL key iv) by assumption.
  rewrite Hacc by (rewrite length_take; lia).
  cbn [negb]. rewrite (Hprefix key iv authTag [] [] Htag Hopen). reflexivity.
Qed.

End EncryptionFacts.

Section EncryptionClaims.
Import EncryptionService.

(** C1 (amended): for every well-formed plaintext (a string in which every
    surrogate code unit is part of a pair) and every master key, [encrypt]
    succeeds and [decrypt] of its blob with the same key returns exactly
    the plaintext. *)
Theorem decrypt_encrypt_well_formed (L : NodeCrypto) (config : SecurityConfig)
    (plaintext : js_string) (masterKey : bytes) (g : RandomSource L)
    (now : Z) :
  NodeCryptoLaws L ->
  fixed_sizes config ->
  Utf8.well_formed plaintext = true ->
  exists blob g',
    encrypt L config plaintext masterKey g now = (Ok blob, g')
    /\ decrypt L config blob masterKey = Ok plaintext.
Proof.
  intros HL Hc Hwf.
  destruct (decrypt_encrypt_utf8 L HL config plaintext masterKey g now Hc)
    as (blob & g' & E & _ & D).
  - apply utf8_encode_bytes, utf8_well_formed_code_units, Hwf.
  - exists blob, g'. split; [exact E|].
    rewrite D, utf8_decode_encode by exact Hwf. reflexivity.
Qed.

(** The theorem for an e-mail address and the default configuration. *)
Lemma decrypt_encrypt_well_formed_witness :
  exists blob g',
    encrypt Reference.crypto DEFAULT_SECURITY_CONFIG (js "user@example.com")
      Reference.masterKey 7 Samples.now = (Ok blob, g')
    /\ decrypt Reference.crypto DEFAULT_SECURITY_CONFIG blob Reference.masterKey
       = Ok (js "user@example.com").
Proof.
  apply (decrypt_encrypt_well_formed Reference.crypto DEFAULT_SECURITY_CONFIG
           (js "user@example.com") Reference.masterKey 7
           Samples.now).
  - exact reference_laws.
  - repeat split.
  - reflexivity.
Defined.

(** C1 as stated fails for a string with a lone surrogate: the 'utf8'
    encoding replaces it by U+FFFD, which is what [decrypt] returns. *)
Lemma decrypt_encrypt_lone_surrogate :
  length Reference.masterKey = 32%nat
  /\ exists blob g',
       encrypt Reference.crypto DEFAULT_SECURITY_CONFIG [0xD800]
         Reference.masterKey 7 Samples.now = (Ok blob, g')
       /\ decrypt Reference.crypto DEFAULT_SECURITY_CONFIG blob Reference.masterKey
          = Ok [0xFFFD]
       /\ decrypt Reference.crypto DEFAULT_SECURITY_CONFIG blob Reference.masterKey
          <> Ok [0xD800].
Proof.
  split; [reflexivity|].
  do 2 eexists. split; [vm_compute; reflexivity|].
  split; [vm_compute; reflexivity | vm_compute; discriminate].
Qed.

(** The same with any library that meets the laws. *)
Lemma lone_surrogate_replaced_with_any_library (L : NodeCrypto) (config : SecurityConfig)
    (masterKey : bytes) (g : RandomSource L) (now : Z) :
  NodeCryptoLaws L ->
  fixed_sizes config ->
  exists blob g',
    encrypt L config [0xD800] masterKey g now = (Ok blob, g')
    /\ decrypt L config blob masterKey = Ok [0xFFFD].
Proof.
  intros HL Hc.
  destruct (decrypt_encrypt_utf8 L HL config [0xD800] masterKey g now Hc)
    as (blob & g' & E & _ & D).
  - change (Forall is_byte [0xEF; 0xBF; 0xBD]).
    repeat (apply List.Forall_cons; [unfold is_byte; lia|]). apply List.Forall_nil.
  - exists blob, g'. split; [exact E | exact D].
Qed.

(** C2 (amended): [decrypt] throws, and returns no plaintext, when the
    version is not 1 ('Unsupported encryption version'), when the library
    rejects the IV or the tag it is given, and when the tag does not verify
    ('Decryption failed'); it returns a plaintext only after the tag has
    verified, and then all of it.  There is no check of the length: a
    payload shorter than 96 bytes leaves a tag slice shorter than 16 bytes
    and no ciphertext.  With the rules of node:crypto (an empty IV is
    refused, a GCM tag has 4, 8 or 12 to 16 bytes) [decrypt] throws on
    every payload shorter than 96 bytes, except when it has 84, 88 or 92
    to 95 bytes: then the 4, 8 or 12 to 15 bytes that are left are taken
    as the tag of an empty ciphertext, and [decrypt] throws 'Decryption
    failed' unless that tag verifies, in which case it returns the empty
    string. *)
Theorem decrypt_failures (L : NodeCrypto) (config : SecurityConfig)
    (blob : EncryptedData) (masterKey : bytes) :
  (version blob <> 1 ->
   decrypt L config blob masterKey = Err (UnsupportedVersion (version blob)))
  /\ (opened L config blob masterKey = None ->
      is_err (decrypt L config blob masterKey) = true)
  /\ (version blob = 1 ->
      cipheriv_accepts L (keyOf L config blob masterKey) (ivOf L config blob) = true ->
      setAuthTag_accepts L (authTagOf L config blob) = true ->
      opened L config blob masterKey = None ->
      decrypt L config blob masterKey = Err DecryptionFailed)
  /\ (forall plaintext,
        decrypt L config blob masterKey = Ok plaintext ->
        version blob = 1
        /\ exists decrypted,
             opened L config blob masterKey = Some decrypted
             /\ plaintext = Utf8.decode decrypted)
  /\ (fixed_sizes config ->
      (length (payload L blob) < 96)%nat ->
      (length (authTagOf L config blob) < 16)%nat
      /\ encryptedOf L config blob = []
      /\ (setAuthTag_accepts L (authTagOf L config blob) = false ->
          is_err (decrypt L config blob masterKey) = true)
      /\ ((length (payload L blob) <= 64)%nat ->
          cipheriv_accepts L (keyOf L config blob masterKey) [] = false ->
          is_err (decrypt L config blob masterKey) = true))
  /\ (NodeCryptoLaws L -> NodeGcmLaws L -> fixed_sizes config ->
      (length (payload L blob) < 96)%nat ->
      (~ In (length (payload L blob)) [84; 88; 92; 93; 94; 95]%nat ->
       is_err (decrypt L config blob masterKey) = true)
      /\ (version blob = 1 ->
          In (length (payload L blob)) [84; 88; 92; 93; 94; 95]%nat ->
          decrypt L config blob masterKey
          = match opened L config blob masterKey with
            | Some _ => Ok []
            | None => Err DecryptionFailed
            end)).
Proof.
  split; [|split; [|split; [|split; [|split]]]].
  6: { intros HL HG Hc Hlen.
       exact (short_payload_decrypt L HL config blob masterKey HG Hc Hlen). }
  all: rewrite decrypt_cases; unfold ENCRYPTION_VERSION.
  - intros Hv. apply Z.eqb_neq in Hv. rewrite Hv. reflexivity.
  - intros Ho. rewrite Ho.
    destruct (negb _); [reflexivity|].
    destruct (negb _); [reflexivity|].
    destruct (negb _); reflexivity.
  - intros Hv Hi Ht Ho. rewrite Hv, Hi, Ht, Ho. reflexivity.
  - intros plaintext.
    destruct (Z.eqb_spec (version blob) 1) as [Hv|Hv]; cbn [negb]; [|discriminate].
    destruct (negb _); [discriminate|].
    destruct (negb _); [discriminate|].
    destruct (opened L config blob masterKey) as [decrypted|]; [|discriminate].
    intros E. inversion E. split; [exact Hv|]. exists decrypted. split; reflexivity.
  - intros Hc Hlen.
    destruct (short_payload_slices L config blob Hc Hlen) as (Htag & Hct & Hiv).
    repeat split; try assumption.
    + intros Ht. rewrite Ht. cbn [negb].
      destruct (negb _); [reflexivity|]. destruct (negb _); reflexivity.
    + intros H64 Hi. rewrite (Hiv H64), Hi. cbn [negb].
      destruct (negb _); reflexivity.
Qed.

(** The theorem on blobs that [decrypt] refuses: one tagged with version
    2, one with the last bit of its ciphertext flipped, one cut after 70
    bytes, which leaves no tag at all, and one cut after 92 bytes whose
    twelfth tag byte was changed. *)
Lemma decrypt_failures_witness :
  decrypt Reference.crypto DEFAULT_SECURITY_CONFIG
    (Samples.withVersion 2 Samples.secretBlob) Reference.masterKey
  = Err (UnsupportedVersion 2)
  /\ decrypt Reference.crypto DEFAULT_SECURITY_CONFIG
       (Samples.flipped 101 Samples.secretBlob) Reference.masterKey
     = Err DecryptionFailed
  /\ is_err (decrypt Reference.crypto DEFAULT_SECURITY_CONFIG
               (truncated Reference.crypto 70 Samples.secretBlob)
               Reference.masterKey) = true
  /\ decrypt Reference.crypto DEFAULT_SECURITY_CONFIG
       (Samples.flipped 91 (truncated Reference.crypto 92 Samples.emptyBlob))
       Reference.masterKey
     = Err DecryptionFailed.
Proof.
  split; [|split; [|split]].
  - apply (proj1 (decrypt_failures Reference.crypto DEFAULT_SECURITY_CONFIG
             (Samples.withVersion 2 Samples.secretBlob) Reference.masterKey)).
    cbn. discriminate.
  - destruct (decrypt_failures Reference.crypto DEFAULT_SECURITY_CONFIG
                (Samples.flipped 101 Samples.secretBlob) Reference.masterKey)
      as (_ & _ & H & _).
    apply H; vm_compute; reflexivity.
  - destruct (decrypt_failures Reference.crypto DEFAULT_SECURITY_CONFIG
                (truncated Reference.crypto 70 Samples.secretBlob)
                Reference.masterKey) as (_ & _ & _ & _ & _ & H).
    destruct (H reference_laws reference_gcm_laws) as (H70 & _).
    + repeat split.
    + vm_compute. lia.
    + apply H70. clear. vm_compute. lia.
  - destruct (decrypt_failures Reference.crypto DEFAULT_SECURITY_CONFIG
                (Samples.flipped 91 (truncated Reference.crypto 92 Samples.emptyBlob))
                Reference.masterKey) as (_ & _ & _ & _ & _ & H).
    destruct (H reference_laws reference_gcm_laws) as (_ & H92).
    + repeat split.
    + vm_compute. lia.
    + rewrite H92; [vm_compute; reflexivity | reflexivity | clear; vm_compute; lia].
Defined.

(** C2 as stated fails for a truncated payload: the blob of the empty
    string has a payload of exactly 96 bytes; cut to 92 bytes it keeps the
    first 12 bytes of its tag, a tag length that GCM accepts, and [decrypt]
    returns the empty string. *)
Lemma decrypt_truncated_succeeds :
  length (payload Reference.crypto Samples.emptyBlob) = 96%nat
  /\ version (truncated Reference.crypto 92 Samples.emptyBlob) = 1
  /\ length (payload Reference.crypto (truncated Reference.crypto 92 Samples.emptyBlob))
     = 92%nat
  /\ decrypt Reference.crypto DEFAULT_SECURITY_CONFIG
       (truncated Reference.crypto 92 Samples.emptyBlob) Reference.masterKey
     = Ok [].
Proof. vm_compute. repeat split. Qed.

End EncryptionClaims.

(** ** The encrypted cache *)

Section CacheFacts.
Import EncryptedCache.
Context (L : NodeCrypto) (V : Type) (J : Json V).

Lemma ensureMasterKey_known (keyring : option bytes) (st : State L V) (key : bytes) :
  masterKey st = Some key -> ensureMasterKey keyring st = (Ok key, st).
Proof. intros H. unfold ensureMasterKey. rewrite H. reflexivity. Qed.

(** After [ensureMasterKey] succeeded the key is kept. *)
Lemma ensureMasterKey_keeps (keyring : option bytes) (st st' : State L V) (key : bytes) :
  ensureMasterKey keyring st = (Ok key, st') ->
  masterKey st' = Some key /\ cache st' = cache st /\ random st' = random st.
Proof.
  unfold ensureMasterKey.
  destruct (masterKey st) as [k|] eqn:E; [|destruct keyring as [k|]];
    intros H; inversion H; subst; cbn; auto.
Qed.

(** What a successful [set] leaves in the cache. *)
Lemma set_stores (key : js_string) (value : V) (ttlMs : Z) (encrypt : bool)
    (now : Z) (keyring : option bytes) (st st' : State L V) :
  set L J key value ttlMs encrypt now keyring st = (Ok tt, st') ->
  exists payload,
    cache st' !! hashKey L key
    = Some {| data := payload; expiresAt := now + ttlMs; createdAt := now |}
    /\ (encrypt = false -> payload = Plain value)
    /\ (encrypt = true ->
        exists masterKey' text blob g g',
          masterKey st' = Some masterKey'
          /\ stringify J value = Some text
          /\ EncryptionService.encrypt L DEFAULT_SECURITY_CONFIG text masterKey' g now
             = (Ok blob, g')
          /\ payload = Sealed (base64Of blob)).
Proof.
  unfold set. destruct encrypt.
  - destruct (ensureMasterKey keyring st) as [[k|e] st1] eqn:E; [|discriminate].
    apply ensureMasterKey_keeps in E as (Hk & _ & _).
    destruct (stringify J value) as [text|] eqn:S; [|discriminate].
    destruct (EncryptionService.encrypt _ _ _ _ _ _) as [[blob|e] g'] eqn:C;
      [|discriminate].
    intros H. inversion H; subst; clear H. cbn.
    eexists. rewrite lookup_insert_eq. split; [reflexivity|].
    split; [discriminate|]. intros _.
    exists k, text, blob, (random st1), g'. auto.
  - intros H. inversion H; subst; clear H. cbn.
    eexists. rewrite lookup_insert_eq. split; [reflexivity|].
    split; [reflexivity | discriminate].
Qed.

(** An entry that has expired is evicted, and reported as a miss. *)
Lemma get_expired (key : js_string) (now : Z) (keyring : option bytes)
    (st : State L V) (entry : CacheEntry V) :
  cache st !! hashKey L key = Some entry ->
  expiresAt entry < now ->
  get L J key now keyring st = (None, evict (hashKey L key) st).
Proof.
  intros Hl He. unfold get. rewrite Hl.
  apply Z.ltb_lt in He. rewrite He. reflexivity.
Qed.

Lemma evict_lookup (hashedKey : js_string) (st : State L V) :
  cache (evict hashedKey st) !! hashedKey = None.
Proof. apply lookup_delete_eq. Qed.

End CacheFacts.

Section CacheClaims.
Import EncryptedCache.

(** C6 (amended): after [set(key, value, T)], with or without encryption,
    [get(key)] returns the value and keeps the entry at every time up to
    and including [T] milliseconds after the [set]; strictly later it
    returns [null] and evicts the entry.  The value is one that JSON
    carries. *)
Theorem cache_entry_lifetime (L : NodeCrypto) {V : Type} (J : Json V)
    (key : js_string) (value : V) (ttlMs : Z) (encrypt : bool)
    (t0 : Z) (keyring : option bytes) (st st' : State L V) :
  NodeCryptoLaws L -> JsonLaws J ->
  set L J key value ttlMs encrypt t0 keyring st = (Ok tt, st') ->
  forall t keyring',
    (t <= t0 + ttlMs -> get L J key t keyring' st' = (Some value, st'))
    /\ (t0 + ttlMs < t ->
        get L J key t keyring' st' = (None, evict (hashKey L key) st')
        /\ cache (evict (hashKey L key) st') !! hashKey L key = None).
Proof.
  intros HL HJ Hset t keyring'.
  destruct (set_stores L V J key value ttlMs encrypt t0 keyring st st' Hset)
    as (payload & Hl & Hplain & Hsealed).
  split.
  - intros Ht. unfold get. rewrite Hl. cbn [expiresAt data].
    destruct (Z.ltb_spec (t0 + ttlMs) t) as [|_]; [lia|].
    destruct encrypt.
    + destruct (Hsealed eq_refl) as (k & text & blob & g & g' & Hk & Hs & He & Hp).
      subst payload.
      rewrite (ensureMasterKey_known L V keyring' st' k Hk).
      pose proof (stringify_well_formed J HJ value text Hs) as Hwf.
      destruct (decrypt_encrypt_utf8 L HL DEFAULT_SECURITY_CONFIG text k g t0)
        as (blob' & g'' & He' & Hv & Hd);
        [repeat split | apply utf8_encode_bytes, utf8_well_formed_code_units, Hwf |].
      rewrite He in He'. inversion He'; subst blob' g''.
      rewrite utf8_decode_encode in Hd by exact Hwf.
      assert (Hb : EncryptionService.decrypt L DEFAULT_SECURITY_CONFIG
                     (Build_EncryptedData (base64Of blob) 1 []) k = Ok text).
      { rewrite <- Hd. unfold EncryptionService.decrypt. cbn [version data].
        rewrite Hv. reflexivity. }
      rewrite Hb, (parse_stringify J HJ value text Hs). reflexivity.
    + rewrite (Hplain eq_refl). reflexivity.
  - intros Ht. split; [|apply evict_lookup].
    apply (get_expired L V J key t keyring' st' _ Hl). cbn. exact Ht.
Qed.


Lemma booleans_laws : JsonLaws booleans.
Proof.
  constructor.
  - intros [] s H; inversion H; reflexivity.
  - intros [] s H; inversion H; reflexivity.
Qed.

(** The theorem for a flag cached with encryption for five minutes. *)
Lemma cache_entry_lifetime_witness :
  get Reference.crypto booleans Samples.flagKey 301000 None Samples.flagCached
  = (Some true, Samples.flagCached)
  /\ fst (get Reference.crypto booleans Samples.flagKey 301001 None Samples.flagCached)
     = None.
Proof.
  assert (A1 : 301000 <= 1000 + 300000) by lia.
  assert (A2 : 1000 + 300000 < 301001) by lia.
  assert (E : set Reference.crypto booleans Samples.flagKey true 300000 true 1000
                (Some Reference.masterKey) (EncryptedCache.empty Reference.crypto bool 7)
              = (Ok tt, Samples.flagCached)).
  { change (Samples.flagSet = (Ok tt, Samples.flagCached)).
    rewrite (surjective_pairing Samples.flagSet).
    apply (f_equal (fun r => (r, Samples.flagCached))). vm_compute. reflexivity. }
  pose proof (cache_entry_lifetime Reference.crypto booleans Samples.flagKey
                true 300000 true 1000 (Some Reference.masterKey) _ _
                reference_laws booleans_laws E) as H.
  split.
  - exact (proj1 (H 301000 None) A1).
  - exact (f_equal fst (proj1 (proj2 (H 301001 None) A2))).
Defined.

(** C6 as stated fails at the boundary: exactly [T] milliseconds after
    the [set], [get] still returns the value and keeps the entry, because
    an entry expires when [Date.now() > expiresAt].  It also fails for a
    value that JSON does not carry: [NaN] comes back as [null]. *)
Lemma cache_hit_at_expiry :
  (fst Samples.flagSet = Ok tt
   /\ fst (get Reference.crypto booleans Samples.flagKey (1000 + 300000) None
             Samples.flagCached) = Some true
   /\ is_Some (cache (snd (get Reference.crypto booleans Samples.flagKey
                             (1000 + 300000) None Samples.flagCached))
               !! hashKey Reference.crypto Samples.flagKey))
  /\ (fst Samples.nanSet = Ok tt
      /\ fst (get Reference.crypto nullish (js "stats:7") 2000 None
                (snd Samples.nanSet)) = Some Null).
Proof.
  split; [split; [|split]|split].
  - vm_compute. reflexivity.
  - vm_compute. reflexivity.
  - vm_compute. eexists. reflexivity.
  - vm_compute. reflexivity.
  - vm_compute. reflexivity.
Qed.

(** C7: an encrypted entry whose master key cannot be obtained, whose text
    does not decrypt or whose plaintext does not parse is deleted by [get],
    which returns [null]; [get] has no other outcome than a value or
    [null]. *)
Theorem get_evicts_undecryptable (L : NodeCrypto) {V : Type} (J : Json V)
    (key : js_string) (now : Z) (keyring : option bytes) (st : State L V)
    (entry : CacheEntry V) (text : js_string) :
  cache st !! hashKey L key = Some entry ->
  data entry = Sealed text ->
  (masterKey st = None /\ keyring = None)
  \/ (exists k, fst (ensureMasterKey keyring st) = Ok k
                /\ (is_err (EncryptionService.decrypt L DEFAULT_SECURITY_CONFIG
                              (Build_EncryptedData text 1 []) k) = true
                    \/ exists plaintext,
                         EncryptionService.decrypt L DEFAULT_SECURITY_CONFIG
                           (Build_EncryptedData text 1 []) k = Ok plaintext
                         /\ parse J plaintext = None)) ->
  encrypted entry = true
  /\ fst (get L J key now keyring st) = None
  /\ cache (snd (get L J key now keyring st)) !! hashKey L key = None.
Proof.
  intros Hl Hd Hfail.
  split; [unfold encrypted; rewrite Hd; reflexivity|].
  unfold get. rewrite Hl, Hd.
  destruct (expiresAt entry <? now); [split; [reflexivity | apply evict_lookup]|].
  destruct Hfail as [[Hk Hr] | (k & Hk & Hfail)].
  - unfold ensureMasterKey. rewrite Hk, Hr.
    split; [reflexivity | apply evict_lookup].
  - destruct (ensureMasterKey keyring st) as [[k'|e] st1] eqn:E;
      cbn [fst] in Hk; inversion Hk; subst.
    destruct Hfail as [Hfail | (plaintext & Hp & Hparse)].
    + destruct (EncryptionService.decrypt _ _ _ _); [discriminate Hfail|].
      split; [reflexivity | apply evict_lookup].
    + rewrite Hp, Hparse. split; [reflexivity | apply evict_lookup].
Qed.

(** The theorem for an entry whose text is not a blob. *)
Lemma get_evicts_undecryptable_witness :
  fst (get Reference.crypto booleans Samples.flagKey 2000 None Samples.corruptCache)
  = None
  /\ cache (snd (get Reference.crypto booleans Samples.flagKey 2000 None
                   Samples.corruptCache))
     !! hashKey Reference.crypto Samples.flagKey = None.
Proof.
  apply (get_evicts_undecryptable Reference.crypto booleans Samples.flagKey 2000 None
           Samples.corruptCache
           {| data := Sealed (js "not a blob"); expiresAt := 301000; createdAt := 1000 |}
           (js "not a blob")).
  - apply lookup_singleton_eq.
  - reflexivity.
  - right. exists Reference.masterKey. split; [reflexivity|].
    left. vm_compute. reflexivity.
Defined.

End CacheClaims.

(** ** The directories of the secure layer *)

Section PathFacts.

Lemma dirname_join (p : path) (name : string) : dirname (join p [name]) = p.
Proof. unfold dirname, join. apply removelast_last. Qed.

Lemma getConfigDir_last (os : Os) :
  exists parent, getConfigDir os = join parent ["diabetes-m-mcp"%string].
Proof.
  unfold getConfigDir, join.
  destruct (platform os).
  - eexists. reflexivity.
  - exists (homedir os ++ ["Library"; "Application Support"]%string).
    rewrite <- app_assoc. reflexivity.
  - eexists. reflexivity.
  - eexists. reflexivity.
Qed.

(** C9, what the code does: the credentials document, the session
    document and the audit log are created in [~/.diabetesm], the master-key
    file in the per-OS directory of [getConfigDir()]; on every system these
    are two different directories, so the files are not in one directory,
    and the set-up tool reports a path for the credentials document that is
    not the one it was written to.  The directories are created with mode
    0700 and the files with mode 0600. *)
Theorem secure_files_in_two_directories (os : Os) :
  dirname (target (CredentialsPaths.credentialsDocument os)) = join (homedir os) [".diabetesm"%string]
  /\ dirname (target (CredentialsPaths.sessionDocument os)) = join (homedir os) [".diabetesm"%string]
  /\ dirname (target (AuditPaths.auditLog os)) = join (homedir os) [".diabetesm"%string]
  /\ dirname (target (KeyringPaths.masterKeyFile os)) = getConfigDir os
  /\ getConfigDir os <> join (homedir os) [".diabetesm"%string]
  /\ ~ one_config_directory os
  /\ reportedCredentialsFile os <> target (CredentialsPaths.credentialsDocument os)
  /\ mode (CredentialsPaths.directory os) = 448
  /\ mode (AuditPaths.directory os) = 448
  /\ mode (KeyringPaths.directory os) = 448
  /\ mode (CredentialsPaths.credentialsDocument os) = 384
  /\ mode (CredentialsPaths.sessionDocument os) = 384
  /\ mode (AuditPaths.auditLog os) = 384
  /\ mode (KeyringPaths.masterKeyFile os) = 384.
Proof.
  assert (Hne : getConfigDir os <> join (homedir os) [".diabetesm"%string]).
  { destruct (getConfigDir_last os) as (parent & E). rewrite E. unfold join.
    intros H. apply app_inj_tail in H as [_ H]. discriminate H. }
  assert (Hk : dirname (target (KeyringPaths.masterKeyFile os)) = getConfigDir os)
    by apply dirname_join.
  assert (Hc : dirname (target (CredentialsPaths.credentialsDocument os))
               = join (homedir os) [".diabetesm"%string]) by apply dirname_join.
  repeat split; try apply dirname_join; try assumption.
  - intros (dir & H1 & _ & _ & H4). apply Hne. congruence.
  - intros H. apply Hne. apply (f_equal dirname) in H.
    unfold reportedCredentialsFile in H. rewrite dirname_join in H.
    rewrite H. exact Hc.
Qed.

(** On a Linux account the two directories are [/home/user/.diabetesm] and
    [/home/user/.config/diabetes-m-mcp]. *)
Lemma secure_files_on_linux :
  dirname (target (CredentialsPaths.credentialsDocument linuxHome))
  = ["home"; "user"; ".diabetesm"]%string
  /\ dirname (target (KeyringPaths.masterKeyFile linuxHome))
     = ["home"; "user"; ".config"; "diabetes-m-mcp"]%string
  /\ reportedCredentialsFile linuxHome
     = ["home"; "user"; ".config"; "diabetes-m-mcp"; "diabetesm-credentials.enc"]%string
  /\ target (CredentialsPaths.credentialsDocument linuxHome)
     = ["home"; "user"; ".diabetesm"; "diabetesm-credentials.enc"]%string.
Proof. repeat split. Qed.

End PathFacts.

(** ** The credentials manager *)

Section CredentialsFacts.
Import Secure.
Context (L : NodeCrypto) (host : Host) (now : Z).

Lemma ensureMasterKey_available (p : Process L) :
  masterKey p <> None \/ keyring host <> None ->
  exists key p',
    ensureMasterKey L host p = (Ok key, p')
    /\ disk p' = disk p /\ events p' = events p /\ masterKey p' = Some key.
Proof.
  intros H. unfold ensureMasterKey.
  destruct (masterKey p) as [k|] eqn:Hk.
  - exists k, p. auto.
  - destruct (keyring host) as [k|].
    + exists k, (withMasterKey L (Some k) p). auto.
    + destruct H; contradiction.
Qed.

Lemma ensureMasterKey_unavailable (p : Process L) :
  masterKey p = None -> keyring host = None ->
  ensureMasterKey L host p = (Err MasterKeyUnavailable, p).
Proof. intros Hk Hr. unfold ensureMasterKey. rewrite Hk, Hr. reflexivity. Qed.

Lemma ensureMasterKey_disk (p p' : Process L) r :
  ensureMasterKey L host p = (r, p') -> disk p' = disk p.
Proof.
  unfold ensureMasterKey.
  destruct (masterKey p); [|destruct (keyring host)];
    intros H; inversion H; reflexivity.
Qed.

(** [getTokens] on an expired document. *)
Lemma getTokens_expired (p : Process L) (document : StoredTokens.t) :
  tokensFile (disk p) = Some (Document document) ->
  expired now (StoredTokens.expiresAt document) = true ->
  fst (getTokens L host now p) = Ok None
  /\ (masterKey p <> None \/ keyring host <> None ->
      tokensFile (disk (snd (getTokens L host now p))) = None)
  /\ (masterKey p = None -> keyring host = None ->
      snd (getTokens L host now p) = p).
Proof.
  intros Hf He. unfold getTokens, bind, read, try_catch. rewrite Hf.
  split; [|split].
  - destruct (ensureMasterKey L host p) as [[key|e] p1] eqn:E; [|reflexivity].
    cbn. rewrite He. unfold deleteTokens, bind, read.
    destruct (tokensFile (disk p1)); reflexivity.
  - intros Hk.
    destruct (ensureMasterKey_available p Hk) as (key & p1 & E & Hd & _ & _).
    rewrite E. cbn. rewrite He. unfold deleteTokens, bind, read.
    rewrite Hd, Hf. reflexivity.
  - intros Hk Hr. rewrite (ensureMasterKey_unavailable p Hk Hr). reflexivity.
Qed.

(** [getTokens] catches whatever is thrown. *)
Lemma getTokens_returns (p : Process L) :
  exists r, fst (getTokens L host now p) = Ok r.
Proof.
  unfold getTokens, bind, read, try_catch.
  destruct (tokensFile (disk p)) as [content|]; [|eexists; reflexivity].
  destruct (ensureMasterKey L host p) as [[key|e] p1]; [|eexists; reflexivity].
  destruct content as [document|]; cbn; [|eexists; reflexivity].
  destruct (expired now (StoredTokens.expiresAt document)).
  - unfold deleteTokens, bind, read.
    destruct (tokensFile (disk p1)); eexists; reflexivity.
  - unfold decrypt.
    destruct (EncryptionService.decrypt L DEFAULT_SECURITY_CONFIG
                (StoredTokens.accessToken document) key); cbn;
      [|eexists; reflexivity].
    destruct (StoredTokens.sessionId document) as [blob|]; cbn;
      [|eexists; reflexivity].
    destruct (EncryptionService.decrypt L DEFAULT_SECURITY_CONFIG blob key); cbn;
      eexists; reflexivity.
Qed.

(** What [getTokens] returns was decrypted from a document that has not
    expired. *)
Lemma getTokens_Some (p : Process L) (accessToken : js_string)
    (sessionId : option js_string) :
  fst (getTokens L host now p) = Ok (Some (accessToken, sessionId)) ->
  exists document key,
    tokensFile (disk p) = Some (Document document)
    /\ expired now (StoredTokens.expiresAt document) = false
    /\ EncryptionService.decrypt L DEFAULT_SECURITY_CONFIG
         (StoredTokens.accessToken document) key = Ok accessToken.
Proof.
  unfold getTokens, bind, read, try_catch.
  destruct (tokensFile (disk p)) as [content|]; [|discriminate].
  destruct (ensureMasterKey L host p) as [[key|e] p1]; [|discriminate].
  destruct content as [document|]; cbn; [|discriminate].
  destruct (expired now (StoredTokens.expiresAt document)) eqn:He.
  - unfold deleteTokens, bind, read.
    destruct (tokensFile (disk p1)); discriminate.
  - unfold decrypt.
    destruct (EncryptionService.decrypt L DEFAULT_SECURITY_CONFIG
                (StoredTokens.accessToken document) key) as [token|] eqn:D; cbn;
      [|discriminate].
    destruct (StoredTokens.sessionId document) as [blob|]; cbn.
    + destruct (EncryptionService.decrypt L DEFAULT_SECURITY_CONFIG blob key); cbn;
        intros H; inversion H; subst; exists document, key; auto.
    + intros H; inversion H; subst; exists document, key; auto.
Qed.

End CredentialsFacts.

Section CredentialsClaims.
Import Secure.

(** C8 (amended): [getTokens] never throws and never returns an expired
    session: for a session document whose [expiresAt] is not after the
    time of the read it returns [null], and it deletes the tokens file
    provided the master key can be obtained; what it returns was decrypted
    from a document that has not expired. *)
Theorem getTokens_never_returns_expired (L : NodeCrypto) (host : Host) (now : Z)
    (p : Process L) :
  (exists r, fst (getTokens L host now p) = Ok r)
  /\ (forall document expiresAt,
        tokensFile (disk p) = Some (Document document) ->
        StoredTokens.expiresAt document = Some expiresAt ->
        expiresAt <= now ->
        fst (getTokens L host now p) = Ok None
        /\ (masterKey p <> None \/ keyring host <> None ->
            tokensFile (disk (snd (getTokens L host now p))) = None))
  /\ (forall accessToken sessionId,
        fst (getTokens L host now p) = Ok (Some (accessToken, sessionId)) ->
        exists document key,
          tokensFile (disk p) = Some (Document document)
          /\ (forall expiresAt,
                StoredTokens.expiresAt document = Some expiresAt -> now < expiresAt)
          /\ EncryptionService.decrypt L DEFAULT_SECURITY_CONFIG
               (StoredTokens.accessToken document) key = Ok accessToken).
Proof.
  split; [apply getTokens_returns|]. split.
  - intros document expiresAt Hf He Hle.
    destruct (getTokens_expired L host now p document Hf) as (H1 & H2 & _).
    + unfold expired. rewrite He. apply Z.leb_le. exact Hle.
    + split; assumption.
  - intros accessToken sessionId H.
    destruct (getTokens_Some L host now p accessToken sessionId H)
      as (document & key & Hf & He & Hd).
    exists document, key. repeat split; try assumption.
    intros expiresAt Hx. unfold expired in He. rewrite Hx in He.
    apply Z.leb_gt in He. exact He.
Qed.

(** The theorem for a session that expired at time 1000, read at time
    2000. *)
Lemma getTokens_never_returns_expired_witness :
  fst (getTokens Reference.crypto (Samples.server true (Some Reference.masterKey))
         2000 (start Reference.crypto Samples.staleDisk 7)) = Ok None
  /\ tokensFile (disk (snd (getTokens Reference.crypto
                              (Samples.server true (Some Reference.masterKey))
                              2000 (start Reference.crypto Samples.staleDisk 7))))
     = None.
Proof.
  destruct (getTokens_never_returns_expired Reference.crypto
              (Samples.server true (Some Reference.masterKey)) 2000
              (start Reference.crypto Samples.staleDisk 7)) as (_ & H & _).
  destruct (H Samples.expiredSession 1000) as [H1 H2];
    [reflexivity | reflexivity | lia |].
  split; [exact H1|]. apply H2. right. discriminate.
Defined.

(** C8 as stated fails when the master key cannot be obtained: the key is
    fetched before the expiry is looked at, so [getTokens] returns [null]
    and leaves the expired tokens file where it is. *)
Lemma getTokens_keeps_expired_file_without_key :
  tokensFile Samples.staleDisk = Some (Document Samples.expiredSession)
  /\ StoredTokens.expiresAt Samples.expiredSession = Some 1000
  /\ fst (getTokens Reference.crypto (Samples.server true None)
            2000 (start Reference.crypto Samples.staleDisk 7)) = Ok None
  /\ tokensFile (disk (snd (getTokens Reference.crypto (Samples.server true None)
                              2000 (start Reference.crypto Samples.staleDisk 7))))
     = Some (Document Samples.expiredSession).
Proof. repeat split. Qed.

End CredentialsClaims.

(** ** Setting up credentials *)

Section FrameFacts.
Import Secure.
Context (L : NodeCrypto).

Lemma grows_refl (p : Process L) : grows p p.
Proof. exists []. symmetry. apply app_nil_r. Qed.

Lemma grows_same_events (p p' : Process L) : events p' = events p -> grows p p'.
Proof. intros E. exists []. rewrite E, app_nil_r. reflexivity. Qed.

Lemma grows_trans (p1 p2 p3 : Process L) : grows p1 p2 -> grows p2 p3 -> grows p1 p3.
Proof.
  intros [n1 H1] [n2 H2]. exists (n1 ++ n2). rewrite H2, H1, app_assoc. reflexivity.
Qed.

Lemma preserved_refl (p : Process L) : preserved p p.
Proof. repeat split; auto using grows_refl. Qed.

Lemma preserved_trans (p1 p2 p3 : Process L) :
  preserved p1 p2 -> preserved p2 p3 -> preserved p1 p3.
Proof.
  intros (C1 & K1 & G1) (C2 & K2 & G2). repeat split.
  - congruence.
  - auto.
  - eapply grows_trans; eassumption.
Qed.



(** The frame rules, for a relation that is reflexive and transitive. *)
Section Rules.
Context (R : Process L -> Process L -> Prop).
Context (R_refl : forall p, R p p).
Context (R_trans : forall p1 p2 p3, R p1 p2 -> R p2 p3 -> R p1 p3).

Lemma Framed_ret {A : Type} (a : A) : Framed R (ret a).
Proof. intros p r p' H. inversion H. apply R_refl. Qed.

Lemma Framed_throw {A : Type} (e : Exception) : Framed R (@throw L A e).
Proof. intros p r p' H. inversion H. apply R_refl. Qed.

Lemma Framed_read {A : Type} (f : Process L -> A) : Framed R (read f).
Proof. intros p r p' H. inversion H. apply R_refl. Qed.

Lemma Framed_update (f : Process L -> Process L) :
  (forall p, R p (f p)) -> Framed R (update f).
Proof. intros Hf p r p' H. inversion H. apply Hf. Qed.

Lemma Framed_bind {A B : Type} (m : M L A) (k : A -> M L B) :
  Framed R m -> (forall a, Framed R (k a)) -> Framed R (bind m k).
Proof.
  intros Hm Hk p r p'. unfold bind.
  destruct (m p) as [[a|e] p1] eqn:E; intros H.
  - eapply R_trans; [eapply Hm, E | eapply Hk, H].
  - inversion H; subst. eapply Hm, E.
Qed.

Lemma Framed_try_catch {A : Type} (m : M L A) (handler : Exception -> M L A) :
  Framed R m -> (forall e, Framed R (handler e)) -> Framed R (try_catch m handler).
Proof.
  intros Hm Hh p r p'. unfold try_catch.
  destruct (m p) as [[a|e] p1] eqn:E; intros H.
  - inversion H; subst. eapply Hm, E.
  - eapply R_trans; [eapply Hm, E | eapply Hh, H].
Qed.

End Rules.

End FrameFacts.

Section SetupFacts.
Import Secure.
Context (L : NodeCrypto) (host : Host) (now : Z).

Ltac frame_with refl trans prim :=
  repeat first
    [ solve [prim]
    | apply (Framed_ret L _ refl)
    | apply (Framed_throw L _ refl)
    | apply (Framed_read L _ refl)
    | apply (Framed_bind L _ trans)
    | apply (Framed_try_catch L _ trans)
    | progress intros
    | match goal with
      | |- Framed _ (match ?x with _ => _ end) => destruct x
      | |- Framed _ (let '(_, _) := ?x in _) => destruct x
      end ].

(** The steps that leave the credentials file and the loaded key alone. *)
Lemma preserved_update (f : Process L -> Process L) :
  (forall p, credentialsFile (disk (f p)) = credentialsFile (disk p)
             /\ masterKey (f p) = masterKey p /\ events (f p) = events p) ->
  Framed preserved (update f).
Proof.
  intros Hf. apply Framed_update. intros p. destruct (Hf p) as (C & K & E).
  split; [assumption|]. split; [congruence|].
  apply grows_same_events, E.
Qed.

Lemma preserved_record (e : Event) : Framed preserved (record L e).
Proof.
  apply Framed_update. intros p. repeat split; auto. exists [e]. reflexivity.
Qed.

Lemma preserved_ensureMasterKey : Framed preserved (ensureMasterKey L host).
Proof.
  intros p r p'. unfold ensureMasterKey.
  destruct (masterKey p) as [k|] eqn:Hk; [|destruct (keyring host)];
    intros H; inversion H; subst; try apply preserved_refl.
  split; [reflexivity|]. split; [congruence | apply grows_same_events; reflexivity].
Qed.

Lemma preserved_encrypt (text : js_string) (key : bytes) :
  Framed preserved (encrypt L now text key).
Proof.
  intros p r p'. unfold encrypt.
  destruct (EncryptionService.encrypt _ _ _ _ _ _) as [[blob|e] g];
    intros H; inversion H; subst;
    (split; [reflexivity|]; split; [auto | apply grows_same_events; reflexivity]).
Qed.

Lemma preserved_decrypt (blob : EncryptedData) (key : bytes) :
  Framed preserved (decrypt L blob key).
Proof.
  unfold decrypt. destruct (EncryptionService.decrypt _ _ _ _).
  - apply (Framed_ret L _ (preserved_refl L)).
  - apply (Framed_throw L _ (preserved_refl L)).
Qed.

Lemma preserved_parseFile {A : Type} (content : FileContent A) :
  Framed preserved (parseFile L content).
Proof.
  destruct content.
  - apply (Framed_ret L _ (preserved_refl L)).
  - apply (Framed_throw L _ (preserved_refl L)).
Qed.

Ltac preserved_steps :=
  first [ apply preserved_record
        | apply preserved_ensureMasterKey
        | apply preserved_encrypt
        | apply preserved_decrypt
        | apply preserved_parseFile
        | apply preserved_update; intros;
          try match goal with
              | |- context [match ?c with [] => _ | _ :: _ => _ end] => destruct c
              end; cbn; auto ].

Ltac preserves :=
  frame_with (preserved_refl L) (preserved_trans L) preserved_steps.


Lemma preserved_deleteTokens : Framed preserved (deleteTokens L).
Proof. unfold deleteTokens. preserves. Qed.

Lemma preserved_getTokens : Framed preserved (getTokens L host now).
Proof.
  unfold getTokens, parseFile. preserves.
Qed.

Lemma preserved_storeTokens accessToken sessionId expiresAt :
  Framed preserved (storeTokens L host now accessToken sessionId expiresAt).
Proof. unfold storeTokens, ensureConfigDir, writeTokens. preserves. Qed.

Lemma preserved_verifySessionM token sessionId :
  Framed preserved (verifySessionM L host token sessionId).
Proof. unfold verifySessionM. preserves. Qed.

Lemma preserved_performLoginM email password :
  Framed preserved (performLoginM L host email password).
Proof. unfold performLoginM. preserves. Qed.

Lemma preserved_authenticated token sessionId :
  Framed preserved (authenticated L now token sessionId).
Proof. unfold authenticated. preserves. Qed.













(** With the laws of the library, [encrypt] does not throw. *)
Lemma encrypt_succeeds (text : js_string) (key : bytes) (p : Process L) :
  NodeCryptoLaws L ->
  exists blob p',
    encrypt L now text key p = (Ok blob, p')
    /\ masterKey p' = masterKey p /\ disk p' = disk p.
Proof.
  intros HL. unfold encrypt, EncryptionService.encrypt.
  cbn [saltSize ivSize keySize DEFAULT_SECURITY_CONFIG].
  pose proof (randomBytes_length L HL (random p) 64 ltac:(lia)) as Hsalt.
  destruct (randomBytes L (random p) 64) as [salt g1]. cbn [fst] in Hsalt.
  pose proof (randomBytes_length L HL g1 16 ltac:(lia)) as Hiv.
  destruct (randomBytes L g1 16) as [iv g2]. cbn [fst] in Hiv.
  rewrite (cipheriv_accepts_sizes L HL)
    by (try assumption; rewrite (pbkdf2Sync_length L HL) by lia; reflexivity).
  destruct (gcm_seal L _ _ _) as [encrypted authTag].
  do 2 eexists. split; [reflexivity|]. split; reflexivity.
Qed.

(** With the laws and a master key at hand, [storeCredentials] does not
    throw. *)
Lemma storeCredentials_succeeds (email password : js_string) (p : Process L) :
  NodeCryptoLaws L ->
  masterKey p <> None \/ keyring host <> None ->
  exists p', storeCredentials L host now email password p = (Ok tt, p')
             /\ masterKey p' <> None.
Proof.
  intros HL Hk.
  unfold storeCredentials, bind, ensureConfigDir, update, writeCredentials, record,
    update, bind.
  match goal with |- context [ensureMasterKey L host ?q] => set (p0 := q) end.
  assert (Hk0 : masterKey p0 <> None \/ keyring host <> None) by exact Hk.
  assert (E : exists key p1, ensureMasterKey L host p0 = (Ok key, p1)
                             /\ masterKey p1 = Some key).
  { unfold ensureMasterKey. destruct (masterKey p0) as [k|] eqn:K.
    - exists k, p0. auto.
    - destruct (keyring host) as [k|]; [|destruct Hk0; contradiction].
      exists k, (withMasterKey L (Some k) p0). auto. }
  destruct E as (key & p1 & E & K1). rewrite E.
  destruct (encrypt_succeeds email key p1 HL) as (b1 & p2 & E1 & K2 & _).
  rewrite E1.
  destruct (encrypt_succeeds password key p2 HL) as (b2 & p3 & E2 & K3 & _).
  rewrite E2.
  eexists. split; [reflexivity|]. cbn. rewrite K3, K2, K1. discriminate.
Qed.

(** When the server accepts neither the stored session nor the login,
    [establishSession] returns [false]. *)
Lemma establishSession_rejected (email password : js_string) (p : Process L) :
  (forall token sessionId, verifySession host token sessionId = false) ->
  (forall e pw, LoginResponse.success (fst (performLogin host e pw)) = false) ->
  fst (establishSession L host now email password p) = Ok false.
Proof.
  intros Hv Hl. unfold establishSession. unfold bind at 1.
  destruct (getTokens_returns L host now p) as (r & Hr).
  destruct (getTokens L host now p) as [r' p1]. cbn [fst] in Hr. subst r'.
  assert (Hlogin : forall q,
            fst (bind (performLoginM L host email password)
                   (fun response =>
                      if LoginResponse.success response
                         && truthy_option (LoginResponse.token response)
                      then
                        bind (authenticated L now
                                (default [] (LoginResponse.token response))
                                (LoginResponse.sessionId response))
                          (fun _ =>
                             bind (storeTokens L host now
                                     (default [] (LoginResponse.token response))
                                     (LoginResponse.sessionId response)
                                     (Some (now + 24 * 60 * 60 * 1000)))
                               (fun _ =>
                                  bind (logOperation L "login" true None)
                                    (fun _ => ret true)))
                      else
                        bind (logOperation L "login" false (Some "AUTH_FAILED"%string))
                          (fun _ => ret false)) q) = Ok false).
  { intros q. unfold performLoginM, bind, record, update, ret.
    specialize (Hl email password).
    destruct (performLogin host email password) as [response setCookies].
    cbn [fst] in Hl. cbn. rewrite Hl. reflexivity. }
  destruct r as [[accessToken sessionId]|].
  - unfold bind at 1. unfold verifySessionM, bind at 1, record, update.
    cbn [ret]. rewrite Hv. cbn [ret]. apply Hlogin.
  - unfold bind at 1. cbn [ret]. apply Hlogin.
Qed.

(** When the server rejects the credentials, the tool reports the failed
    authentication. *)
Lemma executeSetupCredentials_rejected (email password : js_string) (p : Process L) :
  NodeCryptoLaws L ->
  masterKey p <> None \/ keyring host <> None ->
  truthy email = true -> truthy password = true ->
  (forall token sessionId, verifySession host token sessionId = false) ->
  (forall e pw, LoginResponse.success (fst (performLogin host e pw)) = false) ->
  fst (executeSetupCredentials L host now email password p)
  = Ok (setupResult host false authenticationFailedMessage).
Proof.
  intros HL Hk He Hp Hv Hl. unfold executeSetupCredentials.
  rewrite He, Hp. cbn [andb negb]. unfold try_catch. unfold bind at 1.
  destruct (storeCredentials_succeeds email password p HL Hk) as (p1 & S & K1).
  rewrite S. unfold bind at 1.
  unfold login, try_catch. cbn [truthy_option default from_option id].
  rewrite He, Hp. cbn [andb]. unfold bind at 1. unfold bind at 1.
  destruct (storeCredentials_succeeds email password p1 HL (or_introl K1))
    as (p2 & S2 & _).
  rewrite S2. cbn [ret].
  pose proof (establishSession_rejected email password p2 Hv Hl) as E.
  destruct (establishSession L host now email password p2) as [r p3].
  cbn [fst] in E. subst r. reflexivity.
Qed.

End SetupFacts.


(** ** The verification of credentials *)

Section VerificationFacts.
Import Secure.
Context (L : NodeCrypto) (HL : NodeCryptoLaws L) (host : Host) (now : Z).



Lemma keyAt_unique (p : Process L) (key key' : bytes) :
  keyAt host p key -> keyAt host p key' -> key = key'.
Proof. unfold keyAt. intros [H|[H1 H2]] [H'|[H1' H2']]; congruence. Qed.













End VerificationFacts.

Section SetupClaims.
Import Secure.




(** What that run does: the credentials are written, by the tool and again
    by [login], before the login request; the file no longer holds the
    earlier credentials. *)
Lemma rejected_setup_run :
  events (snd Samples.rejectedSetup)
  = [CredentialsWritten; CredentialsWritten; LoginRequested;
     Audited "login" false (Some "AUTH_FAILED"%string);
     Audited "setup_credentials" false (Some "AUTH_FAILED"%string)]
  /\ credentialsFile (disk (snd Samples.rejectedSetup))
     <> Some (Document Samples.earlierCredentials).
Proof. split; [vm_compute; reflexivity | vm_compute; discriminate]. Qed.

End SetupClaims.
